(** * The block ledger service of [src/index.ts]

    The service accepts blocks of value transfers over HTTP, keeps the
    accepted blocks and a table of balances in a PostgreSQL database, answers
    balance queries and can roll the chain back to a height.

    The three route handlers are embedded as computations in a small
    state-and-exception monad over a model of the database session: every
    [pool.query] of the source is one [pool_query] here, a rejected promise is
    the outcome [Thrown], and [try]/[catch] is [try_catch].  The database
    itself, the digest function and the way the driver hands back a JSONB
    column are not part of the repository; the first is modelled from the
    schema that [createTables] declares and from the SQL text of each
    statement, the other two are parameters ([Platform]). *)

From stdpp Require Import gmap strings list pretty sorting.
From Stdlib Require Import ZArith Lia SpecFloat.

#[local] Set Warnings "-clear-no-such-hyp".

Local Open Scope Z_scope.

(** ** Data model (index.ts, lines 11-31) *)

(** [type Output = { address: string; value: number }], taken at its
    declared type. *)
Record Output := mkOutput {
  output_address : string;
  output_value : Z
}.

(** [type Input = { txId: string; index: number }].  The declared type has
    no [value] and no [address], yet the handlers read [input.value] and
    [input.address].  The request body is not validated against a schema, so
    an input object carries these two properties or it does not; reading an
    absent property gives [undefined], modelled as [None]. *)
Record Input := mkInput {
  input_txId : string;
  input_index : Z;
  input_value : option Z;
  input_address : option string
}.

(** [type Transaction = { id; inputs; outputs }]. *)
Record Transaction := mkTransaction {
  tx_id : string;
  tx_inputs : list Input;
  tx_outputs : list Output
}.

(** [type Block = { id; height; transactions }]. *)
Record Block := mkBlock {
  block_id : string;
  block_height : Z;
  block_transactions : list Transaction
}.

(** ** The JavaScript arithmetic the handlers use

    A JavaScript [number] is an IEEE 754 binary64 value.  The amounts of a
    payload are modelled as the integers that such a value can hold (the
    record holds the number as the handler reads it, after [JSON.parse]);
    payloads with fractional amounts are outside the model.  From integers
    the handlers can produce, by addition, an integer, an infinity when the
    sum overflows, and [NaN] when [undefined] or infinities of opposite signs
    are added. *)
Inductive jsnum :=
| Num (z : Z)
| Inf (negative : bool)
| NaN.

(** The multiple of [2^e] nearest to [a], the even multiple when two are
    equally near ([a] is not negative). *)
Definition round_even (a e : Z) : Z :=
  let q := a / 2 ^ e in
  let r := a mod 2 ^ e in
  let q0 := match 2 * r ?= 2 ^ e with
            | Lt => q
            | Gt => q + 1
            | Eq => if Z.even q then q else q + 1
            end in
  q0 * 2 ^ e.

(** The binary64 value nearest to the integer [z]: [z] itself below 2^53
    in magnitude, above that the nearest integer with 53 significant bits,
    ties to even, and an infinity from 2^1024 on. *)
Definition js_round (z : Z) : jsnum :=
  let a := Z.abs z in
  if a <? 2 ^ 53 then Num z
  else let r := round_even a (Z.log2 a - 52) in
       if r <? 2 ^ 1024 then Num (Z.sgn z * r) else Inf (z <? 0).

(** [a + b] on numbers: the exact sum, rounded. *)
Definition js_add (a b : jsnum) : jsnum :=
  match a, b with
  | Num x, Num y => js_round (x + y)
  | Inf s, Num _ | Num _, Inf s => Inf s
  | Inf s, Inf s0 => if Bool.eqb s s0 then Inf s else NaN
  | _, _ => NaN
  end.

(** The numeric reading of a property that may be [undefined]. *)
Definition js_of_field (v : option Z) : jsnum :=
  match v with
  | Some z => Num z
  | None => NaN
  end.

(** [a !== b] on numbers: [NaN] differs from everything, itself included. *)
Definition js_strict_neq (a b : jsnum) : bool :=
  match a, b with
  | Num x, Num y => negb (x =? y)
  | Inf s, Inf s0 => negb (Bool.eqb s s0)
  | _, _ => true
  end.

(** [x || 0] where [x] is an integer or [null]. *)
Definition js_or_zero (x : option Z) : Z :=
  match x with
  | Some z => if z =? 0 then 0 else z
  | None => 0
  end.

(** [n.toString()] for an integer [n]: its decimal numeral.  The handler
    calls it on a height that has passed the height check, hence on an
    integer one above a value of the [INTEGER] column [height]. *)
Definition toString (n : Z) : string := pretty n.

(** [tx.inputs.reduce((sum, input) => sum + input.value, 0)] (line 95). *)
Definition inputSum (tx : Transaction) : jsnum :=
  fold_left (λ sum input, js_add sum (js_of_field (input_value input)))
            (tx_inputs tx) (Num 0).

(** [tx.outputs.reduce((sum, output) => sum + output.value, 0)] (line 96). *)
Definition outputSum (tx : Transaction) : jsnum :=
  fold_left (λ sum output, js_add sum (Num (output_value output)))
            (tx_outputs tx) (Num 0).

(** ** What the repository takes from outside

    [sha256_hex] is [createHash('sha256') ... digest('hex')] on the bytes fed
    to the hash object.  [jsonb_as_text] says how the driver returns the
    JSONB column [data]: as JSON text, on which [JSON.parse] (line 148) gives
    the stored block back, or as an already decoded object, on which
    [JSON.parse] throws. *)
Class Platform := {
  sha256_hex : string → string;
  jsonb_as_text : bool
}.

(** ** The database

    Tables as [createTables] declares them (lines 69-82):
    [blocks (id TEXT PRIMARY KEY, height INTEGER NOT NULL, data JSONB NOT NULL)]
    and [balances (address TEXT PRIMARY KEY, balance INTEGER NOT NULL DEFAULT 0)].
    The table [users] is touched by [testPostgres] only. *)
Record BlockRow := mkBlockRow {
  row_id : string;
  row_height : Z;
  row_data : Block
}.

Record Tables := mkTables {
  blocks : list BlockRow;
  balances : gmap string Z
}.

(** A session: the tables as the session sees them, and the tables as they
    were at [BEGIN] while a transaction is open.  The handlers send every
    statement through [pool.query]; requests are taken one at a time, so that
    the statements of a request reach one session in the order in which they
    are awaited.  Requests that overlap in time are outside this model. *)
Record Db := mkDb {
  tables : Tables;
  open_tx : option Tables
}.

Definition empty_tables : Tables := mkTables [] ∅.
Definition empty_db : Db := mkDb empty_tables None.

(** The statements that the handlers send, one constructor per SQL text.
    A parameter that is [undefined] in JavaScript is sent as [NULL]. *)
Inductive Query :=
| SelectMaxHeight
      (* SELECT MAX(height) as height FROM blocks *)
| Begin
| Commit
| Rollback
| UpdateBalanceSub (value : option Z) (address : option string)
      (* UPDATE balances SET balance = balance - $1 WHERE address = $2 *)
| UpdateBalanceAdd (value : option Z) (address : option string)
      (* UPDATE balances SET balance = balance + $1 WHERE address = $2 *)
| InsertBlock (id : string) (height : Z) (data : Block)
      (* INSERT INTO blocks (id, height, data) VALUES ($1, $2, $3) *)
| SelectBalance (address : string)
      (* SELECT balance FROM balances WHERE address = $1 *)
| DeleteBlocksAbove (height : option Z)
      (* DELETE FROM blocks WHERE height > $1 *)
| TruncateBalances
      (* TRUNCATE balances *)
| SelectDataOrdered.
      (* SELECT data FROM blocks ORDER BY height *)

(** The result set of a statement. *)
Inductive Rows :=
| NoRows
| HeightRow (height : option Z)
| BalanceRows (l : list Z)
| DataRows (l : list Block).

Definition rows_height (r : Rows) : option Z :=
  match r with HeightRow h => h | _ => None end.

Definition rows_balance (r : Rows) : list Z :=
  match r with BalanceRows l => l | _ => [] end.

Definition rows_data (r : Rows) : list Block :=
  match r with DataRows l => l | _ => [] end.

(** [MAX(height)]: [NULL] on an empty table. *)
Definition max_height (l : list BlockRow) : option Z :=
  fold_left (λ acc r, match acc with
                      | None => Some (row_height r)
                      | Some m => Some (Z.max m (row_height r))
                      end) l None.

(** [ORDER BY height], ascending; rows of equal height keep their order. *)
Fixpoint insert_row (r : BlockRow) (l : list BlockRow) : list BlockRow :=
  match l with
  | [] => [r]
  | x :: l' => if row_height r <=? row_height x then r :: l
               else x :: insert_row r l'
  end.

Definition order_by_height (l : list BlockRow) : list BlockRow :=
  foldr insert_row [] l.

(** The range of the type [INTEGER]. *)
Definition int4 (z : Z) : bool :=
  (-2147483648 <=? z) && (z <=? 2147483647).

(** A parameter that the server reads as an [INTEGER]: [NULL], or a number
    in the range of the type.  A statement with another parameter is refused
    before any row is looked at. *)
Definition int4_param (v : option Z) : bool :=
  match v with
  | Some z => int4 z
  | None => true
  end.

(** [UPDATE balances SET balance = op(balance, $1) WHERE address = $2], once
    its parameters have been read ([exec] below refuses an amount outside
    [INTEGER]): the row of that address, if there is one, is rewritten; when
    no row matches, nothing changes and the statement still succeeds.  A
    [NULL] address matches no row; a [NULL] amount would store [NULL] in a
    [NOT NULL] column, and a result outside [INTEGER] is out of range: both
    are errors. *)
Definition update_balance (op : Z → Z → Z) (value : option Z)
    (address : option string) (t : Tables) : option Tables :=
  match address with
  | None => Some t
  | Some a =>
      match balances t !! a with
      | None => Some t
      | Some b =>
          match value with
          | None => None
          | Some v =>
              if int4 (op b v)
              then Some (mkTables (blocks t) (<[a := op b v]> (balances t)))
              else None
          end
      end
  end.

(** [INSERT INTO blocks], once its parameters have been read ([exec] below
    refuses a height outside [INTEGER]): refused when the primary key [id] is
    taken. *)
Definition insert_block (id : string) (height : Z) (data : Block)
    (t : Tables) : option Tables :=
  if existsb (λ r, String.eqb (row_id r) id) (blocks t) then None
  else Some (mkTables (blocks t ++ [mkBlockRow id height data]) (balances t)).

(** [DELETE FROM blocks WHERE height > $1], once its parameter has been
    read ([exec] below refuses a height outside [INTEGER]); the comparison
    with [NULL] is never true. *)
Definition delete_blocks_above (height : option Z) (t : Tables) : Tables :=
  match height with
  | None => t
  | Some h =>
      mkTables (List.filter (λ r, negb (h <? row_height r)) (blocks t))
               (balances t)
  end.

Definition with_tables (d : Db) (t : Tables) : Db := mkDb t (open_tx d).

(** One statement on a session: [None] is an error raised by the
    database. *)
Definition exec (q : Query) (d : Db) : option (Db * Rows) :=
  let t := tables d in
  match q with
  | SelectMaxHeight => Some (d, HeightRow (max_height (blocks t)))
  | Begin =>
      match open_tx d with
      | None => Some (mkDb t (Some t), NoRows)
      | Some _ => Some (d, NoRows)
      end
  | Commit => Some (mkDb t None, NoRows)
  | Rollback =>
      match open_tx d with
      | None => Some (d, NoRows)
      | Some t0 => Some (mkDb t0 None, NoRows)
      end
  | UpdateBalanceSub v a =>
      if int4_param v
      then t' ← update_balance Z.sub v a t; Some (with_tables d t', NoRows)
      else None
  | UpdateBalanceAdd v a =>
      if int4_param v
      then t' ← update_balance Z.add v a t; Some (with_tables d t', NoRows)
      else None
  | InsertBlock id h data =>
      if int4 h
      then t' ← insert_block id h data t; Some (with_tables d t', NoRows)
      else None
  | SelectBalance a =>
      Some (d, BalanceRows (match balances t !! a with
                            | Some b => [b]
                            | None => []
                            end))
  | DeleteBlocksAbove h =>
      if int4_param h
      then Some (with_tables d (delete_blocks_above h t), NoRows)
      else None
  | TruncateBalances => Some (with_tables d (mkTables (blocks t) ∅), NoRows)
  | SelectDataOrdered =>
      Some (d, DataRows (row_data <$> order_by_height (blocks t)))
  end.

(** An error inside a transaction aborts it: what the transaction did is
    discarded, and nothing of it can be committed or read afterwards.  (The
    pool also closes the connection on which a statement failed, which ends
    its transaction on the server.)  Outside a transaction an error changes
    nothing. *)
Definition abort (d : Db) : Db :=
  match open_tx d with
  | Some t0 => mkDb t0 None
  | None => d
  end.

(** ** The handler monad

    A handler runs against the session and leaves a trace of the statements
    it sent, each with its success.  Besides the errors of [exec], a
    statement can fail for a reason outside the model (connection lost,
    ...): [faults n] says that the [n]-th statement of the run fails.  A
    statement that fails has no effect of its own and aborts the transaction
    in which it was sent. *)
Record World := mkWorld {
  db : Db;
  trace : list (Query * bool)
}.

Inductive outcome (A : Type) :=
| Returned (a : A)
| Thrown.
Arguments Returned {A} a.
Arguments Thrown {A}.

Definition Faults := nat → bool.
Definition no_faults : Faults := λ _, false.

Definition M (A : Type) : Type := Faults → World → outcome A * World.

#[global] Instance M_ret : MRet M := λ A a _ w, (Returned a, w).

#[global] Instance M_bind : MBind M := λ A B k m f w,
  match m f w with
  | (Returned a, w') => k a f w'
  | (Thrown, w') => (Thrown, w')
  end.

Definition throw {A} : M A := λ _ w, (Thrown, w).

(** [try { body } catch (err) { handler }]. *)
Definition try_catch {A} (body handler : M A) : M A := λ f w,
  match body f w with
  | (Returned a, w') => (Returned a, w')
  | (Thrown, w') => handler f w'
  end.

(** [await pool.query(...)]. *)
Definition pool_query (q : Query) : M Rows := λ f w,
  let failed := mkWorld (abort (db w)) (trace w ++ [(q, false)]) in
  if f (length (trace w)) then (Thrown, failed)
  else match exec q (db w) with
       | Some (d, rows) => (Returned rows, mkWorld d (trace w ++ [(q, true)]))
       | None => (Thrown, failed)
       end.

(** [for (const x of l) { body }]. *)
Fixpoint for_each {A} (l : list A) (body : A → M unit) : M unit :=
  match l with
  | [] => mret tt
  | x :: l' => body x;; for_each l' body
  end.

Definition run {A} (m : M A) (f : Faults) (d : Db) : outcome A * World :=
  m f (mkWorld d []).

(** ** Replies *)
Inductive Body :=
| ErrorBody (error : string)
| StatusBody (status : string)
| BalanceBody (balance : Z).

Record Reply := mkReply {
  statusCode : Z;
  body : Body
}.

(** [reply.status(c).send(b)] and [reply.send(b)]. *)
Definition send (b : Body) : Reply := mkReply 200 b.

Definition InvalidHeight : Reply := mkReply 400 (ErrorBody "Invalid block height").
Definition UnbalancedTransaction : Reply :=
  mkReply 400 (ErrorBody "Input and output sums do not match").
Definition InvalidBlockId : Reply := mkReply 400 (ErrorBody "Invalid block ID").
Definition AddressNotFound : Reply := mkReply 404 (ErrorBody "Address not found").
Definition BlockAdded : Reply := send (StatusBody "Block added").
Definition RollbackCompleted : Reply := send (StatusBody "Rollback completed").

(** ** The handlers *)
Section Handlers.
Context {platform : Platform}.

(** The hash object of [createHash]: it accumulates what [update] feeds it;
    [digest('hex')] is the digest of the accumulated text. *)
Record Hash := mkHash { fed : string }.

Definition createHash : Hash := mkHash "".
Definition hash_update (h : Hash) (s : string) : Hash := mkHash (fed h +:+ s).
Definition hash_digest (h : Hash) : string := sha256_hex (fed h).

(** Lines 102-105. *)
Definition calculatedId (block : Block) : string :=
  let hash := hash_update createHash (toString (block_height block)) in
  let hash := fold_left (λ h tx, hash_update h (tx_id tx))
                        (block_transactions block) hash in
  hash_digest hash.

(** The loop of lines 94-100: the transaction at which it returns early. *)
Fixpoint first_unbalanced (txs : list Transaction) : option Transaction :=
  match txs with
  | [] => None
  | tx :: rest =>
      if js_strict_neq (inputSum tx) (outputSum tx) then Some tx
      else first_unbalanced rest
  end.

(** The nested loops of lines 112-119 and of lines 149-156. *)
Definition apply_transactions (txs : list Transaction) : M unit :=
  for_each txs (λ tx,
    for_each (tx_inputs tx) (λ input,
      pool_query (UpdateBalanceSub (input_value input) (input_address input));;
      mret tt);;
    for_each (tx_outputs tx) (λ output,
      pool_query (UpdateBalanceAdd (Some (output_value output))
                                   (Some (output_address output)));;
      mret tt)).

(** The second half of [POST /blocks], lines 110-127: the transaction that
    applies a block which passed the checks. *)
Definition apply_block (block : Block) : M Reply :=
  pool_query Begin;;
  try_catch
    (apply_transactions (block_transactions block);;
     pool_query (InsertBlock (block_id block) (block_height block) block);;
     pool_query Commit;;
     mret tt)
    (pool_query Rollback;; throw);;
  mret BlockAdded.

(** [fastify.post('/blocks', ...)], lines 85-128. *)
Definition post_blocks (block : Block) : M Reply :=
  currentHeightRows ← pool_query SelectMaxHeight;
  let currentHeight := js_or_zero (rows_height currentHeightRows) in
  if negb (block_height block =? currentHeight + 1) then mret InvalidHeight
  else if first_unbalanced (block_transactions block) is Some _
  then mret UnbalancedTransaction
  else if negb (String.eqb (block_id block) (calculatedId block))
  then mret InvalidBlockId
  else apply_block block.

(** [fastify.get('/balance/:address', ...)], lines 130-137. *)
Definition get_balance (address : string) : M Reply :=
  rows ← pool_query (SelectBalance address);
  match rows_balance rows with
  | [] => mret AddressNotFound
  | balance :: _ => mret (send (BalanceBody balance))
  end.

(** [JSON.parse(row.data)], line 148. *)
Definition JSON_parse (data : Block) : M Block :=
  if jsonb_as_text then mret data else throw.

(** [fastify.post('/rollback', ...)], lines 139-164.  [height] is the query
    parameter of the request, [None] when the request has none. *)
Definition post_rollback (height : option Z) : M Reply :=
  pool_query Begin;;
  try_catch
    (pool_query (DeleteBlocksAbove height);;
     pool_query TruncateBalances;;
     rows ← pool_query SelectDataOrdered;
     for_each (rows_data rows) (λ data,
       block ← JSON_parse data;
       apply_transactions (block_transactions block));;
     pool_query Commit;;
     mret tt)
    (pool_query Rollback;; throw);;
  mret RollbackCompleted.

(** ** Reachable states

    The database starts with both tables empty and is changed by the
    handlers only, each request under whatever faults the store suffers. *)
Inductive reachable : Db → Prop :=
| reachable_start : reachable empty_db
| reachable_post_blocks d block f :
    reachable d → reachable (db (run (post_blocks block) f d).2)
| reachable_get_balance d address f :
    reachable d → reachable (db (run (get_balance address) f d).2)
| reachable_post_rollback d height f :
    reachable d → reachable (db (run (post_rollback height) f d).2).

(** The height that [POST /blocks] compares with: the greatest accepted
    height, 0 when there is none. *)
Definition currentHeight (d : Db) : Z :=
  js_or_zero (max_height (blocks (tables d))).

End Handlers.

(** ** The vocabulary of the specification *)

Definition sum_list (l : list Z) : Z := foldr Z.add 0 l.

(** A transaction conserves value: each of its inputs carries an integer
    [value], and these add up to the sum of the outputs' values. *)
Definition conserves (tx : Transaction) : Prop :=
  ∃ vs : list Z,
    input_value <$> tx_inputs tx = Some <$> vs ∧
    sum_list vs = sum_list (output_value <$> tx_outputs tx).

(** The comparison of line 97 does not fire on the transaction: the two
    sums, as JavaScript computes them, are the same number. *)
Definition balanced (tx : Transaction) : Prop :=
  js_strict_neq (inputSum tx) (outputSum tx) = false.

(** Amounts that JavaScript adds without rounding: none is negative and
    their total is below 2^53. *)
Definition amounts_safe (vs : list Z) : Prop :=
  Forall (λ v, 0 ≤ v) vs ∧ sum_list vs < 2 ^ 53.

(** A transaction whose amounts, those of the inputs that carry one and
    those of the outputs, are added without rounding. *)
Definition sums_exact (tx : Transaction) : Prop :=
  amounts_safe (omap input_value (tx_inputs tx)) ∧
  amounts_safe (output_value <$> tx_outputs tx).

(** The deltas of a chain folded over the all-zero balance mapping: inputs
    subtract, outputs add, in block order, transaction order, inputs before
    outputs. *)
Definition credit (address : string) (amount : Z) (m : string → Z) : string → Z :=
  λ a, if String.eqb a address then m a + amount else m a.

Definition fold_input (m : string → Z) (input : Input) : string → Z :=
  match input_address input, input_value input with
  | Some a, Some v => credit a (- v) m
  | _, _ => m
  end.

Definition fold_output (m : string → Z) (output : Output) : string → Z :=
  credit (output_address output) (output_value output) m.

Definition fold_transaction (m : string → Z) (tx : Transaction) : string → Z :=
  fold_left fold_output (tx_outputs tx) (fold_left fold_input (tx_inputs tx) m).

Definition fold_block (m : string → Z) (block : Block) : string → Z :=
  fold_left fold_transaction (block_transactions block) m.

Definition fold_deltas (chain : list Block) : string → Z :=
  fold_left fold_block chain (λ _, 0).

(** The addresses that have a row in [balances], in the tables of the
    session or in those a [ROLLBACK] would restore. *)
Definition addresses (d : Db) : gset string :=
  dom (balances (tables d)) ∪
  match open_tx d with
  | Some t => dom (balances t)
  | None => ∅
  end.

Definition succeeded (e : Query * bool) : Prop := e.2 = true.

(** A stand-in platform on which the handlers can be evaluated: the digest
    of a text is the text itself, and the driver returns JSON text. *)
Definition plain_platform : Platform :=
  {| sha256_hex := λ s, s; jsonb_as_text := true |}.

(** The block of the scenario in section 8 of the specification. *)
Definition block1 {platform : Platform} : Block :=
  mkBlock (sha256_hex ("1" +:+ "tx1")) 1
          [mkTransaction "tx1" [] [mkOutput "addr1" 10]].

(** The statements other than the ones that end a transaction. *)
Definition is_data_statement (q : Query) : bool :=
  match q with
  | Commit | Rollback => false
  | _ => true
  end.

(** A computation that runs inside an open transaction and does not end
    it: when it returns, the tables saved at [BEGIN] are still saved and
    every statement it sent succeeded; when it throws, it threw at a
    statement that failed, the last one it sent, and the session is back at
    the tables saved at [BEGIN]. *)
Definition tx_body {A} (m : M A) : Prop :=
  ∀ f w t0,
    open_tx (db w) = Some t0 →
    match m f w with
    | (Returned _, w0) =>
        open_tx (db w0) = Some t0 ∧
        ∃ l, trace w0 = trace w ++ l ∧ Forall succeeded l
    | (Thrown, w0) =>
        db w0 = mkDb t0 None ∧
        ∃ l q, trace w0 = trace w ++ l ++ [(q, false)] ∧ Forall succeeded l
    end.

(** A block that passes the three checks of [POST /blocks] on a session. *)
Definition validated {platform : Platform} (d : Db) (block : Block) : Prop :=
  block_height block = currentHeight d + 1 ∧
  Forall balanced (block_transactions block) ∧
  block_id block = calculatedId block.

(** A property of the session that every step of a computation keeps. *)
Definition preserves {A} (I : Db → Prop) (m : M A) : Prop :=
  ∀ f w, I (db w) → I (db (m f w).2).

(** A block that moves 10 from "alice" to "bob". *)
Definition transfer1 {platform : Platform} : Block :=
  mkBlock (sha256_hex ("1" +:+ "tx1")) 1
          [mkTransaction "tx1"
             [mkInput "tx0" 0 (Some 10) (Some "alice")]
             [mkOutput "bob" 10]].

(** A session whose table of balances was filled from outside the service. *)
Definition seeded_db : Db :=
  mkDb (mkTables [] (<["alice" := 50]> (<["bob" := 0]> ∅))) None.

(** The faults in which exactly the [k]-th statement of the request fails. *)
Definition fault_at (k : nat) : Faults := λ n, Nat.eqb n k.

(** A platform whose driver returns the column [data] already decoded. *)
Definition decoding_platform : Platform :=
  {| sha256_hex := λ s, s; jsonb_as_text := false |}.

(** ** Requests used as examples *)
(** A transaction that creates 10 out of nothing, and a block of height 5
    that carries it under a made-up id. *)
Definition mint : Transaction := mkTransaction "tx1" [] [mkOutput "addr1" 10].
Definition far_block : Block := mkBlock "block5" 5 [mint].


(** The request of the test [POST /blocks] in [spec/index.spec.ts], lines
    116-132. *)
Definition spec_test_block : Block := mkBlock "block1" 1 [mint].

(** A session whose chain holds one block with the id "2", and a block of
    height 2 without transactions, whose recomputed id on [plain_platform] is
    "2" as well. *)
Definition taken_db : Db :=
  mkDb (mkTables [mkBlockRow "2" 1 (mkBlock "2" 1 [])] ∅) None.
Definition taken_block : Block := mkBlock "2" 2 [].

(** [transfer1] on [plain_platform] with its output sent elsewhere. *)
Definition redirected_block : Block :=
  mkBlock "1tx1" 1
          [mkTransaction "tx1"
             [mkInput "tx0" 0 (Some 10) (Some "alice")]
             [mkOutput "mallory" 10]].

(** A block whose only input is of the declared type, without [value]. *)
Definition valueless_input : Input := mkInput "tx0" 0 None None.
Definition valueless_block : Block :=
  mkBlock "1t" 1 [mkTransaction "t" [valueless_input] []].




(** A block that passes the three checks on [plain_platform] with an amount
    outside the range of [INTEGER]. *)
Definition wide_block : Block :=
  mkBlock "1w1" 1
          [mkTransaction "w1"
             [mkInput "tx0" 0 (Some 2147483648) (Some "alice")]
             [mkOutput "bob" 2147483648]].

(** Binary64 addition as the Standard Library specifies it, on integers, to
    compare [js_add] with. *)
Definition spec_of_Z (z : Z) : spec_float :=
  match z with
  | 0 => S754_zero false
  | Zpos p => S754_finite false p 0
  | Zneg p => S754_finite true p 0
  end.

Definition jsnum_of_spec (x : spec_float) : jsnum :=
  match x with
  | S754_zero _ => Num 0
  | S754_infinity s => Inf s
  | S754_nan => NaN
  | S754_finite s m e => Num (Z.shiftl (if s then Zneg m else Zpos m) e)
  end.

Definition binary64_add (x y : Z) : jsnum :=
  jsnum_of_spec (SFadd 53 1024 (spec_of_Z x) (spec_of_Z y)).

Definition jsnum_eqb (a b : jsnum) : bool :=
  match a, b with
  | Num x, Num y => x =? y
  | Inf s, Inf s0 => Bool.eqb s s0
  | NaN, NaN => true
  | _, _ => false
  end.

(** ** Start-up (index.ts, lines 41-83 and 166-190)

    [createTables], [testPostgres], [bootstrap] and the top-level block that
    starts the server.  At start-up a table may not exist yet, so the state
    is a catalog in which each of the three tables is there or not. *)
Module Boot.

(** A row of [users (id TEXT PRIMARY KEY, name TEXT NOT NULL, email TEXT
    NOT NULL)]. *)
Record UserRow := mkUserRow {
  user_id : string;
  user_name : string;
  user_email : string
}.

Record Catalog := mkCatalog {
  users_table : option (list UserRow);
  blocks_table : option (list BlockRow);
  balances_table : option (gmap string Z)
}.

(** The statements of lines 46-82, one constructor per SQL text. *)
Inductive Statement :=
| CreateUsers        (* CREATE TABLE IF NOT EXISTS users (...) *)
| CreateBlocks       (* CREATE TABLE IF NOT EXISTS blocks (...) *)
| CreateBalances     (* CREATE TABLE IF NOT EXISTS balances (...) *)
| DeleteUsers        (* DELETE FROM users *)
| InsertUser (id name email : string)
                     (* INSERT INTO users (id, name, email) VALUES ($1, $2, $3) *)
| SelectUsers.       (* SELECT * FROM users *)

(** [CREATE TABLE IF NOT EXISTS]: an existing table is left as it is. *)
Definition create_if_missing {A} (empty : A) (t : option A) : option A :=
  match t with
  | Some x => Some x
  | None => Some empty
  end.

(** One statement on a catalog; [None] is an error of the database: a
    table that does not exist, or a primary key that is taken. *)
Definition exec (q : Statement) (c : Catalog) : option (Catalog * list UserRow) :=
  match q with
  | CreateUsers =>
      Some (mkCatalog (create_if_missing [] (users_table c))
                      (blocks_table c) (balances_table c), [])
  | CreateBlocks =>
      Some (mkCatalog (users_table c)
                      (create_if_missing [] (blocks_table c))
                      (balances_table c), [])
  | CreateBalances =>
      Some (mkCatalog (users_table c) (blocks_table c)
                      (create_if_missing ∅ (balances_table c)), [])
  | DeleteUsers =>
      match users_table c with
      | None => None
      | Some _ => Some (mkCatalog (Some []) (blocks_table c) (balances_table c), [])
      end
  | InsertUser id name email =>
      match users_table c with
      | None => None
      | Some rows =>
          if existsb (λ r, String.eqb (user_id r) id) rows then None
          else Some (mkCatalog (Some (rows ++ [mkUserRow id name email]))
                               (blocks_table c) (balances_table c), [])
      end
  | SelectUsers =>
      match users_table c with
      | None => None
      | Some rows => Some (c, rows)
      end
  end.

Inductive Error :=
| DatabaseUrlRequired      (* new Error(DATABASE_URL is required), line 170 *)
| StoreError               (* a rejected pool.query *)
| ListenError.             (* a rejected fastify.listen *)

(** What is written to the console and to the log of the server. *)
Inductive LogLine :=
| Bootstrapping                       (* line 167 *)
| Users (rows : list UserRow)         (* line 57 *)
| LoggedError (e : Error).            (* line 188 *)

Record World := mkWorld {
  catalog : Catalog;
  sent : list (Statement * bool);
  console : list LogLine
}.

Inductive outcome (A : Type) :=
| Returned (a : A)
| Thrown (e : Error).
Arguments Returned {A} a.
Arguments Thrown {A} e.

Definition M (A : Type) : Type := Faults → World → outcome A * World.

Definition ret {A} (a : A) : M A := λ _ w, (Returned a, w).

Definition bind {A B} (m : M A) (k : A → M B) : M B := λ f w,
  match m f w with
  | (Returned a, w0) => k a f w0
  | (Thrown e, w0) => (Thrown e, w0)
  end.

Definition throw {A} (e : Error) : M A := λ _ w, (Thrown e, w).

(** [await pool.query(...)]: the [n]-th statement fails when [f n] says
    so, or when the database refuses it. *)
Definition pool_query (q : Statement) : M (list UserRow) := λ f w,
  let failed := mkWorld (catalog w) (sent w ++ [(q, false)]) (console w) in
  if f (length (sent w)) then (Thrown StoreError, failed)
  else match exec q (catalog w) with
       | Some (c, rows) =>
           (Returned rows, mkWorld c (sent w ++ [(q, true)]) (console w))
       | None => (Thrown StoreError, failed)
       end.

Definition console_log (l : LogLine) : M unit := λ _ w,
  (Returned tt, mkWorld (catalog w) (sent w) (console w ++ [l])).

(** What the process finds around it: the variable [DATABASE_URL], the
    value that [randomUUID()] returns, and whether [fastify.listen]
    succeeds. *)
Record Env := mkEnv {
  DATABASE_URL : option string;
  randomUUID : string;
  listen_succeeds : bool
}.

(** [!databaseUrl]: the variable is unset or empty. *)
Definition js_not (s : option string) : bool :=
  match s with
  | None => true
  | Some s => String.eqb s ""
  end.

(** [createTables], lines 60-83. *)
Definition createTables : M unit :=
  bind (pool_query CreateUsers) (λ _,
  bind (pool_query CreateBlocks) (λ _,
  bind (pool_query CreateBalances) (λ _,
  ret tt))).

(** [testPostgres], lines 41-58. *)
Definition testPostgres (env : Env) : M unit :=
  let id := randomUUID env in
  let name := "Satoshi" in
  let email := "Nakamoto" in
  bind (pool_query DeleteUsers) (λ _,
  bind (pool_query (InsertUser id name email)) (λ _,
  bind (pool_query SelectUsers) (λ rows,
  console_log (Users rows)))).

(** [bootstrap], lines 166-179. *)
Definition bootstrap (env : Env) : M unit :=
  bind (console_log Bootstrapping) (λ _,
  let databaseUrl := DATABASE_URL env in
  if js_not databaseUrl then throw DatabaseUrlRequired
  else
    bind createTables (λ _,
    testPostgres env)).

(** How the top-level block ends: the server listens, or the process exits
    with the given code. *)
Inductive Ending :=
| Listening
| Exit (code : Z).

(** [fastify.listen(...)]. *)
Definition listen (env : Env) : M unit :=
  if listen_succeeds env then ret tt else throw ListenError.

(** Lines 181-190: [try { await bootstrap(); await fastify.listen(...) }
    catch (err) { fastify.log.error(err); process.exit(1) }]. *)
Definition main (env : Env) (f : Faults) (c : Catalog) : Ending * World :=
  match bind (bootstrap env) (λ _, listen env) f (mkWorld c [] []) with
  | (Returned _, w) => (Listening, w)
  | (Thrown e, w) =>
      (Exit 1, mkWorld (catalog w) (sent w) (console w ++ [LoggedError e]))
  end.

Definition run {A} (m : M A) (f : Faults) (c : Catalog) : outcome A * World :=
  m f (mkWorld c [] []).

(** The catalog in which the three tables exist with the rows of the
    tables [t] of a session and the users [us]. *)
Definition of_tables (us : list UserRow) (t : Tables) : Catalog :=
  mkCatalog (Some us) (Some (blocks t)) (Some (balances t)).

End Boot.

(** A database without tables, one with a user left from an earlier run,
    and two environments. *)
Definition no_tables : Boot.Catalog := Boot.mkCatalog None None None.
Definition used_catalog : Boot.Catalog :=
  Boot.mkCatalog (Some [Boot.mkUserRow "u0" "Hal" "Finney"])
                 (Some [mkBlockRow "2" 1 (mkBlock "2" 1 [])])
                 (Some (<["alice" := 50]> ∅)).
Definition good_env : Boot.Env :=
  Boot.mkEnv (Some "postgres://localhost/ledger") "u1" true.
Definition bare_env : Boot.Env := Boot.mkEnv None "u1" true.

(** ** Triples

    [hoare f P m Q E]: under the faults [f], from a session that satisfies
    [P], the computation [m] returns [a] in a session that satisfies [Q a], or
    throws in a session that satisfies [E]. *)
Definition hoare {A} (f : Faults) (P : Db → Prop) (m : M A)
    (Q : A → Db → Prop) (E : Db → Prop) : Prop :=
  ∀ w, P (db w) →
       match m f w with
       | (Returned a, w0) => Q a (db w0)
       | (Thrown, w0) => E (db w0)
       end.

(** A statement of the replayed loops: one of the two [UPDATE]s. *)
Definition is_update (q : Query) : bool :=
  match q with
  | UpdateBalanceSub _ _ | UpdateBalanceAdd _ _ => true
  | _ => false
  end.

(** The parameters that the statement hands to the database are in the
    range of the column type [INTEGER]. *)
Definition in_range (q : Query) : bool :=
  match q with
  | UpdateBalanceSub v _ | UpdateBalanceAdd v _ => int4_param v
  | InsertBlock _ h _ => int4 h
  | DeleteBlocksAbove h => int4_param h
  | _ => true
  end.

(** The amounts of a transaction, as the parameters of its [UPDATE]s, are in
    the range of [INTEGER]. *)
Definition amounts_int4 (tx : Transaction) : Prop :=
  Forall (λ input, int4_param (input_value input) = true) (tx_inputs tx) ∧
  Forall (λ output, int4 (output_value output) = true) (tx_outputs tx).

(** Every statement from the [k]-th on fails. *)
Definition fault_from (k : nat) : Faults := λ n, (k <=? n)%nat.

(** The balances of a session are those of [B0] moved by [g]. *)
Definition moved_by (B0 : gmap string Z) (g : string → Z) (d : Db) : Prop :=
  ∀ a b0, B0 !! a = Some b0 → balances (tables d) !! a = Some (b0 + g a).

(** ** Well-formed chains *)

(** The [i]-th row, counted from 0, has height [i + 1]. *)
Definition numbered_from_one (l : list BlockRow) : Prop :=
  ∀ (i : nat) r, l !! i = Some r → row_height r = Z.of_nat i + 1.

(** A row as [POST /blocks] writes it, for a block that passed the
    conservation check and the identity check. *)
Definition row_valid {platform : Platform} (r : BlockRow) : Prop :=
  row_id r = block_id (row_data r) ∧
  row_height r = block_height (row_data r) ∧
  Forall balanced (block_transactions (row_data r)) ∧
  block_id (row_data r) = calculatedId (row_data r).

(** A chain: heights 1, 2, 3, ... in the order of insertion, valid rows,
    no id twice. *)
Definition blocks_wf {platform : Platform} (l : list BlockRow) : Prop :=
  numbered_from_one l ∧ Forall row_valid l ∧ NoDup (row_id <$> l).

Definition chain_wf {platform : Platform} (t : Tables) : Prop :=
  blocks_wf (blocks t).

Definition session_wf {platform : Platform} (d : Db) : Prop :=
  chain_wf (tables d) ∧ ∀ t0, open_tx d = Some t0 → chain_wf t0.

(** ** The monad, step by step *)

Lemma bind_run {A B} (m : M A) (k : A → M B) f w :
  (m ≫= k) f w =
  match m f w with
  | (Returned a, w') => k a f w'
  | (Thrown, w') => (Thrown, w')
  end.
Proof. reflexivity. Qed.

Lemma pool_query_fault q f w :
  f (length (trace w)) = true →
  pool_query q f w = (Thrown, mkWorld (abort (db w)) (trace w ++ [(q, false)])).
Proof. intros Hf. unfold pool_query. by rewrite Hf. Qed.

Lemma pool_query_run q f w :
  f (length (trace w)) = false →
  pool_query q f w =
  match exec q (db w) with
  | Some (d, rows) => (Returned rows, mkWorld d (trace w ++ [(q, true)]))
  | None => (Thrown, mkWorld (abort (db w)) (trace w ++ [(q, false)]))
  end.
Proof. intros Hf. unfold pool_query. by rewrite Hf. Qed.

(** A statement that fails leaves the session as it was, or as it was at
    [BEGIN]. *)
Lemma pool_query_thrown q f w w' :
  pool_query q f w = (Thrown, w') →
  w' = mkWorld (abort (db w)) (trace w ++ [(q, false)]).
Proof.
  unfold pool_query. destruct (f _); [congruence|].
  destruct (exec q (db w)) as [[d rows]|]; congruence.
Qed.

Lemma abort_closed d : open_tx d = None → abort d = d.
Proof. intros Ho. unfold abort. by rewrite Ho. Qed.

Lemma abort_open d t0 : open_tx d = Some t0 → abort d = mkDb t0 None.
Proof. intros Ho. unfold abort. by rewrite Ho. Qed.

Lemma open_tx_abort d : open_tx (abort d) = None.
Proof. unfold abort. by destruct (open_tx d) eqn:Ho. Qed.

(** What the statements with an [INTEGER] parameter do when they succeed. *)
Lemma exec_update_sub_inv v a d d0 rows :
  exec (UpdateBalanceSub v a) d = Some (d0, rows) →
  int4_param v = true ∧
  ∃ t, update_balance Z.sub v a (tables d) = Some t ∧ d0 = with_tables d t.
Proof.
  cbn [exec]. destruct (int4_param v); [|done].
  destruct (update_balance _ _ _ _) as [t|]; cbn; [|done].
  intros [= <- _]. eauto.
Qed.

Lemma exec_update_add_inv v a d d0 rows :
  exec (UpdateBalanceAdd v a) d = Some (d0, rows) →
  int4_param v = true ∧
  ∃ t, update_balance Z.add v a (tables d) = Some t ∧ d0 = with_tables d t.
Proof.
  cbn [exec]. destruct (int4_param v); [|done].
  destruct (update_balance _ _ _ _) as [t|]; cbn; [|done].
  intros [= <- _]. eauto.
Qed.

Lemma exec_insert_inv id h data d d0 rows :
  exec (InsertBlock id h data) d = Some (d0, rows) →
  int4 h = true ∧
  ∃ t, insert_block id h data (tables d) = Some t ∧ d0 = with_tables d t.
Proof.
  cbn [exec]. destruct (int4 h); [|done].
  destruct (insert_block _ _ _ _) as [t|]; cbn; [|done].
  intros [= <- _]. eauto.
Qed.

Lemma exec_delete_inv h d d0 rows :
  exec (DeleteBlocksAbove h) d = Some (d0, rows) →
  int4_param h = true ∧
  d0 = with_tables d (delete_blocks_above h (tables d)).
Proof.
  cbn [exec]. destruct (int4_param h); [|done]. by intros [= <- _].
Qed.

Lemma pool_query_returned q f w rows w' :
  pool_query q f w = (Returned rows, w') →
  f (length (trace w)) = false ∧ exec q (db w) = Some (db w', rows) ∧
  trace w' = trace w ++ [(q, true)].
Proof.
  unfold pool_query. destruct (f _); [congruence|].
  destruct (exec q (db w)) as [[d r]|]; [|congruence].
  intros [= <- <-]. done.
Qed.

(** ** [ORDER BY height] *)

Lemma insert_row_perm r l : insert_row r l ≡ₚ r :: l.
Proof.
  induction l as [|x l IH]; cbn; [done|].
  destruct (row_height r <=? row_height x); [done|].
  rewrite IH. apply Permutation_swap.
Qed.

Lemma order_by_height_perm l : order_by_height l ≡ₚ l.
Proof.
  induction l as [|r l IH]; cbn; [done|].
  rewrite insert_row_perm. by constructor.
Qed.

Lemma insert_row_sorted r l :
  StronglySorted (λ a b, row_height a ≤ row_height b) l →
  StronglySorted (λ a b, row_height a ≤ row_height b) (insert_row r l).
Proof.
  induction 1 as [|x l Hl IH Hx]; cbn.
  - repeat constructor.
  - destruct (Z.leb_spec (row_height r) (row_height x)) as [Hle|Hgt].
    + constructor; [by constructor|]. constructor; [done|].
      eapply Forall_impl; [exact Hx|]. cbn. intros y Hy. lia.
    + constructor; [done|]. rewrite insert_row_perm.
      constructor; [lia|done].
Qed.

Lemma order_by_height_sorted l :
  StronglySorted (λ a b, row_height a ≤ row_height b) (order_by_height l).
Proof.
  induction l as [|r l IH]; cbn; [constructor|]. by apply insert_row_sorted.
Qed.

(** ** No statement adds a row to [balances] *)

Lemma update_balance_dom op v a t t' :
  update_balance op v a t = Some t' →
  dom (balances t') = dom (balances t) ∧ blocks t' = blocks t.
Proof.
  unfold update_balance. intros Hu.
  destruct a as [a|]; [|by simplify_eq].
  destruct (balances t !! a) as [b|] eqn:Hb; [|by simplify_eq].
  destruct v as [v|]; [|done]. destruct (int4 _); simplify_eq.
  cbn. split; [|done].
  rewrite dom_insert_L. apply elem_of_dom_2 in Hb. set_solver.
Qed.

Lemma update_balance_absent op v a t :
  (∀ x, a = Some x → balances t !! x = None) →
  update_balance op v a t = Some t.
Proof.
  intros Ha. unfold update_balance. destruct a as [a|]; [|done].
  by rewrite (Ha a eq_refl).
Qed.

Lemma insert_block_balances id h data t t' :
  insert_block id h data t = Some t' → balances t' = balances t.
Proof. unfold insert_block. case_match; [done|]. by intros [= <-]. Qed.

Lemma exec_addresses q d d' rows :
  exec q d = Some (d', rows) → addresses d' ⊆ addresses d.
Proof.
  unfold addresses. destruct q; intros Hq.
  - cbn in Hq. by simplify_eq.
  - cbn in Hq.
    destruct (open_tx d) eqn:Ho; simplify_eq; cbn; [by rewrite Ho|set_solver].
  - cbn in Hq. simplify_eq. cbn. set_solver.
  - cbn in Hq.
    destruct (open_tx d) eqn:Ho; simplify_eq; cbn; [set_solver|by rewrite Ho].
  - apply exec_update_sub_inv in Hq as [_ [t [Hu ->]]]. cbn.
    apply update_balance_dom in Hu as [-> _]. done.
  - apply exec_update_add_inv in Hq as [_ [t [Hu ->]]]. cbn.
    apply update_balance_dom in Hu as [-> _]. done.
  - apply exec_insert_inv in Hq as [_ [t [Hi ->]]]. cbn.
    apply insert_block_balances in Hi as ->. done.
  - cbn in Hq. by simplify_eq.
  - apply exec_delete_inv in Hq as [_ ->]. cbn. destruct height; cbn; done.
  - cbn in Hq. simplify_eq. cbn. rewrite dom_empty_L. set_solver.
  - cbn in Hq. by simplify_eq.
Qed.

Lemma abort_addresses d : addresses (abort d) ⊆ addresses d.
Proof.
  unfold addresses, abort. destruct (open_tx d) as [t0|] eqn:Ho; cbn.
  - apply union_least; [apply union_subseteq_r|apply empty_subseteq].
  - by rewrite Ho.
Qed.

Lemma preserves_ret {A} I (a : A) : preserves I (mret a).
Proof. intros f w Hw. done. Qed.

Lemma preserves_throw {A} I : preserves I (@throw A).
Proof. intros f w Hw. done. Qed.

Lemma preserves_bind {A B} I (m : M A) (k : A → M B) :
  preserves I m → (∀ a, preserves I (k a)) → preserves I (m ≫= k).
Proof.
  intros Hm Hk f w Hw. rewrite bind_run. specialize (Hm f w Hw).
  destruct (m f w) as [[a|] w']; cbn in *; [by apply Hk|done].
Qed.

Lemma preserves_try_catch {A} I (m h : M A) :
  preserves I m → preserves I h → preserves I (try_catch m h).
Proof.
  intros Hm Hh f w Hw. unfold try_catch. specialize (Hm f w Hw).
  destruct (m f w) as [[a|] w']; cbn in *; [done|by apply Hh].
Qed.

Lemma preserves_for_each {A} I (l : list A) (body : A → M unit) :
  (∀ x, preserves I (body x)) → preserves I (for_each l body).
Proof.
  intros Hb. induction l as [|x l IH]; cbn.
  - apply preserves_ret.
  - apply preserves_bind; [apply Hb|done].
Qed.

Lemma preserves_pool_query I q :
  (∀ d, I d → I (abort d)) →
  (∀ d d' rows, I d → exec q d = Some (d', rows) → I d') →
  preserves I (pool_query q).
Proof.
  intros Ha Hq f w Hw. unfold pool_query. destruct (f _); [by apply Ha|].
  destruct (exec q (db w)) as [[d rows]|] eqn:He; cbn;
    [by eapply Hq|by apply Ha].
Qed.

Section Properties.
Context {platform : Platform}.

Lemma preserves_apply_transactions I txs :
  (∀ q, preserves I (pool_query q)) → preserves I (apply_transactions txs).
Proof.
  intros Hq. apply preserves_for_each. intros tx.
  apply preserves_bind; [|intros _];
    apply preserves_for_each; intros x;
    (apply preserves_bind; [apply Hq|intros _; apply preserves_ret]).
Qed.

Lemma preserves_apply_block I block :
  (∀ q, preserves I (pool_query q)) → preserves I (apply_block block).
Proof.
  intros Hq. unfold apply_block.
  apply preserves_bind; [apply Hq|intros _].
  apply preserves_bind; [|intros _; apply preserves_ret].
  apply preserves_try_catch.
  - apply preserves_bind; [by apply preserves_apply_transactions|intros _].
    apply preserves_bind; [apply Hq|intros _].
    apply preserves_bind; [apply Hq|intros _; apply preserves_ret].
  - apply preserves_bind; [apply Hq|intros _; apply preserves_throw].
Qed.

Lemma preserves_post_blocks I block :
  (∀ q, preserves I (pool_query q)) → preserves I (post_blocks block).
Proof.
  intros Hq. unfold post_blocks.
  apply preserves_bind; [apply Hq|intros rows]. cbn zeta.
  repeat case_match; try apply preserves_ret.
  by apply preserves_apply_block.
Qed.

Lemma preserves_get_balance I address :
  (∀ q, preserves I (pool_query q)) → preserves I (get_balance address).
Proof.
  intros Hq. unfold get_balance.
  apply preserves_bind; [apply Hq|intros rows].
  case_match; apply preserves_ret.
Qed.

Lemma preserves_post_rollback I height :
  (∀ q, preserves I (pool_query q)) → preserves I (post_rollback height).
Proof.
  intros Hq. unfold post_rollback.
  apply preserves_bind; [apply Hq|intros _].
  apply preserves_bind; [|intros _; apply preserves_ret].
  apply preserves_try_catch.
  - apply preserves_bind; [apply Hq|intros _].
    apply preserves_bind; [apply Hq|intros _].
    apply preserves_bind; [apply Hq|intros rows].
    apply preserves_bind; [|intros _].
    + apply preserves_for_each. intros data. apply preserves_bind.
      * unfold JSON_parse. case_match; [apply preserves_ret|apply preserves_throw].
      * intros block. by apply preserves_apply_transactions.
    + apply preserves_bind; [apply Hq|intros _; apply preserves_ret].
  - apply preserves_bind; [apply Hq|intros _; apply preserves_throw].
Qed.

Lemma pool_query_addresses X q :
  preserves (λ d, addresses d ⊆ X) (pool_query q).
Proof.
  apply preserves_pool_query.
  - intros d Hd. pose proof (abort_addresses d). set_solver.
  - intros d d' rows Hd He. apply exec_addresses in He. set_solver.
Qed.

(** In every reachable state no address has a row, neither in the tables of
    the session nor in the ones a [ROLLBACK] would restore. *)
Lemma reachable_addresses d : reachable d → addresses d = ∅.
Proof.
  intros Hr. apply (anti_symm (⊆)); [|set_solver].
  induction Hr as [|d block f _ IH|d address f _ IH|d height f _ IH].
  - unfold addresses. cbn. rewrite dom_empty_L. set_solver.
  - by apply (preserves_post_blocks _ block (pool_query_addresses ∅) f (mkWorld d [])).
  - by apply (preserves_get_balance _ address (pool_query_addresses ∅) f (mkWorld d [])).
  - by apply (preserves_post_rollback _ height (pool_query_addresses ∅) f (mkWorld d [])).
Qed.

Lemma reachable_balances d : reachable d → balances (tables d) = ∅.
Proof.
  intros Hr. apply reachable_addresses in Hr. unfold addresses in Hr.
  apply dom_empty_iff_L. set_solver.
Qed.

(** ** The checks of [POST /blocks] *)

(** The handler, once the height has been read: three checks in a row on
    the session as it is, then the transaction. *)
Lemma post_blocks_run block f d :
  f 0%nat = false →
  run (post_blocks block) f d =
  let w := mkWorld d [(SelectMaxHeight, true)] in
  if negb (block_height block =? currentHeight d + 1)
  then (Returned InvalidHeight, w)
  else if first_unbalanced (block_transactions block) is Some _
  then (Returned UnbalancedTransaction, w)
  else if negb (String.eqb (block_id block) (calculatedId block))
  then (Returned InvalidBlockId, w)
  else apply_block block f w.
Proof.
  intros Hf. unfold run, post_blocks. rewrite bind_run.
  rewrite pool_query_run by done. cbn.
  fold (currentHeight d). repeat case_match; reflexivity.
Qed.

(** What [apply_block] can return. *)
Lemma apply_block_returned block f w r w0 :
  apply_block block f w = (Returned r, w0) → r = BlockAdded.
Proof.
  unfold apply_block. intros Hr.
  rewrite bind_run in Hr. destruct (pool_query Begin f w) as [[?|] w1]; [|done].
  rewrite bind_run in Hr. case_match. case_match; [|done].
  by injection Hr as <- _.
Qed.

(** *** The sums of line 95 and line 96 *)

Lemma js_round_small z : Z.abs z < 2 ^ 53 → js_round z = Num z.
Proof.
  intros Hz. unfold js_round. by destruct (Z.ltb_spec (Z.abs z) (2 ^ 53)); [|lia].
Qed.

Lemma js_add_nan a : js_add a NaN = NaN.
Proof. by destruct a. Qed.

Lemma js_sum_inputs_nan (l : list Input) :
  fold_left (λ sum input, js_add sum (js_of_field (input_value input))) l NaN = NaN.
Proof. induction l as [|i l IH]; [done|]. cbn. apply IH. Qed.

(** A sum that is a number was made of inputs that all carry a value. *)
Lemma js_sum_inputs_num (l : list Input) (acc : jsnum) (x : Z) :
  fold_left (λ sum input, js_add sum (js_of_field (input_value input))) l acc
  = Num x →
  ∃ vs, input_value <$> l = Some <$> vs.
Proof.
  revert acc. induction l as [|i l IH]; intros acc Hl.
  - by exists [].
  - cbn in Hl. destruct (input_value i) as [v|] eqn:Hv; cbn in Hl.
    + destruct (IH _ Hl) as [vs Hvs]. exists (v :: vs). cbn. by rewrite Hv, Hvs.
    + by rewrite js_add_nan, js_sum_inputs_nan in Hl.
Qed.

Lemma input_values_present (l : list Input) (vs : list Z) :
  input_value <$> l = Some <$> vs → omap input_value l = vs.
Proof.
  revert vs. induction l as [|i l IH]; intros [|v vs] Hl; try done.
  cbn in Hl. injection Hl as Hv Hl. cbn. rewrite Hv. cbn. by rewrite (IH vs).
Qed.

(** The sum of the inputs is the sum of their amounts. *)
Lemma js_sum_inputs_values (l : list Input) (acc : jsnum) (vs : list Z) :
  input_value <$> l = Some <$> vs →
  fold_left (λ sum input, js_add sum (js_of_field (input_value input))) l acc
  = fold_left (λ sum v, js_add sum (Num v)) vs acc.
Proof.
  revert acc vs. induction l as [|i l IH]; intros acc [|v vs] Hl; try done.
  cbn in Hl. injection Hl as Hv Hl. cbn. rewrite Hv. cbn. by apply IH.
Qed.

Lemma js_sum_outputs_values (l : list Output) (acc : jsnum) :
  fold_left (λ sum output, js_add sum (Num (output_value output))) l acc
  = fold_left (λ sum v, js_add sum (Num v)) (output_value <$> l) acc.
Proof. revert acc. induction l as [|o l IH]; intros acc; [done|]. cbn. apply IH. Qed.

(** Amounts that are not negative and whose total stays below 2^53 are
    added without rounding. *)
Lemma js_sum_exact (vs : list Z) (acc : Z) :
  0 ≤ acc → Forall (λ v, 0 ≤ v) vs → acc + sum_list vs < 2 ^ 53 →
  fold_left (λ sum v, js_add sum (Num v)) vs (Num acc) = Num (acc + sum_list vs).
Proof.
  revert acc. induction vs as [|v vs IH]; intros acc Hacc Hvs Hsum; cbn.
  - f_equal. lia.
  - apply Forall_cons_1 in Hvs as [Hv Hvs]. unfold sum_list in Hsum. cbn in Hsum.
    assert (0 ≤ sum_list vs) as Hnn.
    { clear -Hvs. induction Hvs as [|x l Hx _ IHl]; [done|].
      unfold sum_list in *. cbn. lia. }
    unfold sum_list in Hnn.
    rewrite js_round_small by lia. rewrite IH; [|lia|done|unfold sum_list; lia].
    unfold sum_list. f_equal. lia.
Qed.

Lemma outputSum_exact tx :
  amounts_safe (output_value <$> tx_outputs tx) →
  outputSum tx = Num (sum_list (output_value <$> tx_outputs tx)).
Proof.
  intros [Hnn Hlt]. unfold outputSum.
  rewrite js_sum_outputs_values, js_sum_exact; [done|done|done|lia].
Qed.

Lemma inputSum_exact tx vs :
  input_value <$> tx_inputs tx = Some <$> vs →
  amounts_safe (omap input_value (tx_inputs tx)) →
  inputSum tx = Num (sum_list vs).
Proof.
  intros Hvs Hsafe. rewrite (input_values_present _ _ Hvs) in Hsafe.
  destruct Hsafe as [Hnn Hlt]. unfold inputSum.
  rewrite (js_sum_inputs_values _ _ vs Hvs), js_sum_exact; [done|done|done|lia].
Qed.

(** On amounts that are added without rounding, the comparison of line 97
    decides whether the transaction conserves value. *)
Lemma balanced_conserves tx : sums_exact tx → balanced tx ↔ conserves tx.
Proof.
  intros [Hin Hout]. unfold balanced, conserves.
  rewrite (outputSum_exact tx Hout). split.
  - intros Hn. destruct (inputSum tx) as [x| |] eqn:Hx; try done.
    unfold inputSum in Hx.
    destruct (js_sum_inputs_num _ _ _ Hx) as [vs Hvs]. exists vs. split; [done|].
    fold (inputSum tx) in Hx. rewrite (inputSum_exact tx vs Hvs Hin) in Hx.
    cbn in Hn. apply negb_false_iff, Z.eqb_eq in Hn. congruence.
  - intros (vs & Hvs & Hsum). rewrite (inputSum_exact tx vs Hvs Hin). cbn.
    apply negb_false_iff, Z.eqb_eq. done.
Qed.

Lemma first_unbalanced_none txs :
  first_unbalanced txs = None ↔ Forall balanced txs.
Proof.
  unfold balanced. induction txs as [|tx txs IH]; cbn.
  - split; [constructor|done].
  - destruct (js_strict_neq _ _) eqn:Hn.
    + split; [done|]. intros Hall. apply Forall_cons_1 in Hall as [Hc _].
      congruence.
    + rewrite IH. split.
      * intros Hall. by constructor.
      * intros Hall. by apply Forall_cons_1 in Hall as [_ ?].
Qed.


Lemma first_unbalanced_some txs :
  (∃ tx, tx ∈ txs ∧ ¬ balanced tx) → is_Some (first_unbalanced txs).
Proof.
  intros (tx & Hin & Htx).
  destruct (first_unbalanced txs) eqn:Hf; [done|].
  apply first_unbalanced_none in Hf. rewrite Forall_forall in Hf.
  destruct Htx. by apply Hf.
Qed.

(** A transaction that conserves value has an amount on each input. *)
Lemma conserves_input_value tx input :
  conserves tx → input ∈ tx_inputs tx → is_Some (input_value input).
Proof.
  intros (vs & Hvs & _) Hin.
  apply (list_elem_of_fmap_2 input_value) in Hin. rewrite Hvs in Hin.
  apply list_elem_of_fmap in Hin as (v & -> & _). eauto.
Qed.

(** So has one on which the comparison of line 97 does not fire. *)
(** One input without a value makes the sum [NaN]. *)
Lemma js_sum_inputs_valueless (l : list Input) (acc : jsnum) input :
  input ∈ l → input_value input = None →
  fold_left (λ sum i, js_add sum (js_of_field (input_value i))) l acc = NaN.
Proof.
  intros Hin Hv. revert acc. induction l as [|i l IH]; intros acc.
  - by apply elem_of_nil in Hin.
  - cbn. apply elem_of_cons in Hin as [<-|Hin]; [|by apply IH].
    rewrite Hv. cbn. by rewrite js_add_nan, js_sum_inputs_nan.
Qed.

Lemma balanced_input_value tx input :
  balanced tx → input ∈ tx_inputs tx → is_Some (input_value input).
Proof.
  unfold balanced. intros Hb Hin.
  destruct (input_value input) as [v|] eqn:Hv; [eauto|]. exfalso.
  pose proof (js_sum_inputs_valueless (tx_inputs tx) (Num 0) input Hin Hv) as Hn.
  change (inputSum tx = NaN) in Hn. by rewrite Hn in Hb.
Qed.

(** [MAX(height)] is the greatest height in the table. *)
Lemma max_height_from (l : list BlockRow) (m : Z) :
  ∃ x, fold_left (λ acc r, match acc with
                           | None => Some (row_height r)
                           | Some m => Some (Z.max m (row_height r))
                           end) l (Some m) = Some x ∧
       m ≤ x ∧ (∀ r, r ∈ l → row_height r ≤ x) ∧
       (x = m ∨ ∃ r, r ∈ l ∧ row_height r = x).
Proof.
  revert m. induction l as [|r l IH]; intros m; cbn.
  - exists m. repeat split; [lia| |by left]. intros r Hr. by apply elem_of_nil in Hr.
  - destruct (IH (Z.max m (row_height r))) as (x & Hx & Hle & Hall & Hex).
    exists x. split; [done|]. split; [lia|]. split.
    + intros r0 Hr0. apply elem_of_cons in Hr0 as [->|Hr0]; [lia|by apply Hall].
    + destruct Hex as [->|(r0 & Hr0 & <-)].
      * destruct (Z.max_spec m (row_height r)) as [[_ ->]|[_ ->]].
        -- right. exists r. split; [apply list_elem_of_here|done].
        -- by left.
      * right. exists r0. split; [by apply list_elem_of_further|done].
Qed.

Lemma max_height_spec (l : list BlockRow) :
  match max_height l with
  | None => l = []
  | Some x => (∀ r, r ∈ l → row_height r ≤ x) ∧ ∃ r, r ∈ l ∧ row_height r = x
  end.
Proof.
  destruct l as [|r l]; [done|]. unfold max_height. cbn.
  destruct (max_height_from l (row_height r)) as (x & -> & Hle & Hall & Hex).
  split.
  - intros r0 Hr0. apply elem_of_cons in Hr0 as [->|Hr0]; [lia|by apply Hall].
  - destruct Hex as [->|(r0 & Hr0 & <-)].
    + exists r. split; [apply list_elem_of_here|done].
    + exists r0. split; [by apply list_elem_of_further|done].
Qed.

(** [currentHeight]: 0 on an empty chain, the greatest stored height
    otherwise. *)
Lemma currentHeight_spec d :
  (blocks (tables d) = [] → currentHeight d = 0) ∧
  (blocks (tables d) ≠ [] →
     (∀ r, r ∈ blocks (tables d) → row_height r ≤ currentHeight d) ∧
     ∃ r, r ∈ blocks (tables d) ∧ row_height r = currentHeight d).
Proof.
  unfold currentHeight. pose proof (max_height_spec (blocks (tables d))) as Hm.
  split.
  - by intros ->.
  - intros Hne. destruct (max_height _) as [x|]; [|done].
    destruct Hm as [Hall Hex]. cbn.
    destruct (x =? 0) eqn:Hx; [apply Z.eqb_eq in Hx; subst x|]; done.
Qed.

Lemma not_height_reply r :
  r = UnbalancedTransaction ∨ r = InvalidBlockId ∨ r = BlockAdded →
  r ≠ InvalidHeight.
Proof. by intros [->|[->| ->]]. Qed.

(** C3 (height check): when the height of the block differs from
    [currentHeight + 1], where [currentHeight] is the greatest accepted height
    or 0 on an empty chain, the handler answers [InvalidHeight] and the
    session, balances and chain, is as before; a block of height
    [currentHeight + 1] is never answered with [InvalidHeight]. *)
Theorem height_check block f d :
  f 0%nat = false →
  (blocks (tables d) = [] → currentHeight d = 0) ∧
  (blocks (tables d) ≠ [] →
     (∀ r, r ∈ blocks (tables d) → row_height r ≤ currentHeight d) ∧
     ∃ r, r ∈ blocks (tables d) ∧ row_height r = currentHeight d) ∧
  (block_height block ≠ currentHeight d + 1 →
     run (post_blocks block) f d =
     (Returned InvalidHeight, mkWorld d [(SelectMaxHeight, true)])) ∧
  (block_height block = currentHeight d + 1 →
     (run (post_blocks block) f d).1 ≠ Returned InvalidHeight).
Proof.
  intros Hf. destruct (currentHeight_spec d) as [He Hne].
  split; [done|]. split; [done|]. rewrite post_blocks_run by done. cbn zeta.
  split.
  - intros Hh. apply Z.eqb_neq in Hh. by rewrite Hh.
  - intros Hh. apply Z.eqb_eq in Hh. rewrite Hh. cbn.
    repeat case_match; try done.
    destruct (apply_block _ _ _) as [[r|] w] eqn:Ha; [|done].
    apply apply_block_returned in Ha as ->. done.
Qed.

(** C4 (order of the checks): height first, then conservation, then
    identity.  A block of the wrong height is answered [InvalidHeight]
    whatever else is wrong with it; with the right height, a transaction on
    which the comparison of the sums fires gives [UnbalancedTransaction]
    whatever the id; only then is the id compared.  In each rejection the
    only statement sent is the height query and the session is unchanged; the
    transaction that applies the block starts only when the three checks have
    passed. *)
Theorem validation_order block f d :
  f 0%nat = false →
  let w := mkWorld d [(SelectMaxHeight, true)] in
  (block_height block ≠ currentHeight d + 1 →
     run (post_blocks block) f d = (Returned InvalidHeight, w)) ∧
  (block_height block = currentHeight d + 1 →
   ¬ Forall balanced (block_transactions block) →
     run (post_blocks block) f d = (Returned UnbalancedTransaction, w)) ∧
  (block_height block = currentHeight d + 1 →
   Forall balanced (block_transactions block) →
   block_id block ≠ calculatedId block →
     run (post_blocks block) f d = (Returned InvalidBlockId, w)) ∧
  (block_height block = currentHeight d + 1 →
   Forall balanced (block_transactions block) →
   block_id block = calculatedId block →
     run (post_blocks block) f d = apply_block block f w).
Proof.
  intros Hf w. rewrite post_blocks_run by done. cbn zeta. fold w.
  split; [|split; [|split]].
  - intros Hh. apply Z.eqb_neq in Hh. by rewrite Hh.
  - intros Hh Hc. apply Z.eqb_eq in Hh. rewrite Hh. cbn.
    destruct (first_unbalanced _) eqn:Hu; [done|].
    by apply first_unbalanced_none in Hu.
  - intros Hh Hc Hi. apply Z.eqb_eq in Hh. rewrite Hh. cbn.
    apply first_unbalanced_none in Hc. rewrite Hc.
    apply String.eqb_neq in Hi. by rewrite Hi.
  - intros Hh Hc Hi. apply Z.eqb_eq in Hh. rewrite Hh. cbn.
    apply first_unbalanced_none in Hc. rewrite Hc.
    apply String.eqb_eq in Hi. by rewrite Hi.
Qed.


Lemma append_assoc (a b c : string) : (a +:+ b) +:+ c = a +:+ (b +:+ c).
Proof.
  induction a as [|x a IH]; [done|].
  change (String x ((a +:+ b) +:+ c) = String x (a +:+ (b +:+ c))).
  by rewrite IH.
Qed.

Lemma hash_update_all (txs : list Transaction) (h : Hash) :
  fed (fold_left (λ h tx, hash_update h (tx_id tx)) txs h) =
  fed h +:+ foldr (λ tx s, tx_id tx +:+ s) "" txs.
Proof.
  revert h. induction txs as [|tx txs IH]; intros h; cbn.
  - induction (fed h) as [|x s IHs]; [done|].
    change (String x s = String x (s +:+ "")). by rewrite <- IHs.
  - rewrite IH. apply append_assoc.
Qed.


(** ** Balance queries and the states the service can be in *)

Lemma get_balance_run address f d :
  f 0%nat = false →
  run (get_balance address) f d =
  (Returned (match balances (tables d) !! address with
             | Some b => send (BalanceBody b)
             | None => AddressNotFound
             end),
   mkWorld d [(SelectBalance address, true)]).
Proof.
  intros Hf. unfold run, get_balance. rewrite bind_run.
  rewrite pool_query_run by done. cbn.
  by destruct (balances (tables d) !! address).
Qed.

Lemma get_balance_reachable d address f :
  reachable d → f 0%nat = false →
  (run (get_balance address) f d).1 = Returned AddressNotFound.
Proof.
  intros Hr Hf. rewrite get_balance_run by done. cbn.
  by rewrite (reachable_balances d Hr), lookup_empty.
Qed.

(** C10 (no row is ever inserted into [balances]): no statement that the
    handlers send gives an address a row it did not have, an [UPDATE] for an
    address without a row changes nothing, and so, from the empty database,
    the table [balances] is empty in every reachable state and every balance
    query that the store answers is answered [AddressNotFound]. *)
Theorem balances_stay_empty :
  (∀ q d d0 rows, exec q d = Some (d0, rows) → addresses d0 ⊆ addresses d) ∧
  (∀ op value a t,
     balances t !! a = None → update_balance op value (Some a) t = Some t) ∧
  (∀ d, reachable d →
     balances (tables d) = ∅ ∧
     ∀ address f, f 0%nat = false →
       (run (get_balance address) f d).1 = Returned AddressNotFound).
Proof.
  split; [|split].
  - apply exec_addresses.
  - intros op value a t Ha. apply update_balance_absent. by intros x [= <-].
  - intros d Hr. split; [by apply reachable_balances|].
    intros address f Hf. by apply get_balance_reachable.
Qed.

(** C8 (rollback twice, rollback to the current height): from a reachable
    state, two rollbacks to the same height in a row leave the same table of
    balances after each, and a rollback to the current height leaves the
    table of balances as it was. *)
Theorem rollback_idempotent d :
  reachable d →
  ∀ height f1 f2,
    let d1 := db (run (post_rollback height) f1 d).2 in
    let d2 := db (run (post_rollback height) f2 d1).2 in
    balances (tables d1) = balances (tables d2) ∧
    balances (tables (db (run (post_rollback (Some (currentHeight d))) f1 d).2))
    = balances (tables d).
Proof.
  intros Hr height f1 f2 d1 d2.
  assert (reachable d1) as Hr1 by by apply reachable_post_rollback.
  assert (reachable d2) as Hr2 by by apply reachable_post_rollback.
  rewrite !reachable_balances; [done|done| |done|done].
  by apply reachable_post_rollback.
Qed.

(** ** What the handlers answer *)

Lemma post_blocks_returned block f d r w :
  run (post_blocks block) f d = (Returned r, w) →
  r = InvalidHeight ∨ r = UnbalancedTransaction ∨ r = InvalidBlockId ∨
  r = BlockAdded.
Proof.
  destruct (f 0%nat) eqn:Hf.
  - unfold run, post_blocks. rewrite bind_run, pool_query_fault by done. done.
  - rewrite post_blocks_run by done. cbn zeta. repeat case_match.
    + intros [= <- _]. auto.
    + intros [= <- _]. auto.
    + intros [= <- _]. auto.
    + intros Ha. apply apply_block_returned in Ha. auto.
Qed.

Lemma post_rollback_returned height f d r w :
  run (post_rollback height) f d = (Returned r, w) → r = RollbackCompleted.
Proof.
  unfold run, post_rollback. intros Hr.
  rewrite bind_run in Hr. case_match. case_match; [|done].
  rewrite bind_run in Hr. case_match. case_match; [|done].
  by injection Hr as <- _.
Qed.

(** C9, as the code has it (success replies): a block submission that is
    answered with status 200 has the body [{status: "Block added"}], and a
    rollback that returns a reply returns status 200 with the body
    [{status: "Rollback completed"}]. *)
Theorem success_replies :
  (∀ block f d r w,
     run (post_blocks block) f d = (Returned r, w) →
     statusCode r = 200 → body r = StatusBody "Block added") ∧
  (∀ height f d r w,
     run (post_rollback height) f d = (Returned r, w) →
     statusCode r = 200 ∧ body r = StatusBody "Rollback completed").
Proof.
  split.
  - intros block f d r w Hr Hs.
    apply post_blocks_returned in Hr as [->|[->|[->| ->]]]; done.
  - intros height f d r w Hr. by apply post_rollback_returned in Hr as ->.
Qed.

(** ** The transaction that applies a block *)

Lemma exec_open_tx q d d0 rows t0 :
  is_data_statement q = true → exec q d = Some (d0, rows) →
  open_tx d = Some t0 → open_tx d0 = Some t0.
Proof.
  intros Hq He Ho. destruct q; try done.
  - cbn in He. by injection He as <- _.
  - cbn in He. rewrite Ho in He. by injection He as <- _.
  - by apply exec_update_sub_inv in He as [_ [t [_ ->]]].
  - by apply exec_update_add_inv in He as [_ [t [_ ->]]].
  - by apply exec_insert_inv in He as [_ [t [_ ->]]].
  - cbn in He. by injection He as <- _.
  - by apply exec_delete_inv in He as [_ ->].
  - cbn in He. by injection He as <- _.
  - cbn in He. by injection He as <- _.
Qed.

Lemma tx_body_ret {A} (a : A) : tx_body (mret a).
Proof.
  intros f w t0 Ho. split; [done|]. exists []. by rewrite app_nil_r.
Qed.

Lemma tx_body_pool_query q :
  is_data_statement q = true → tx_body (pool_query q).
Proof.
  intros Hq f w t0 Ho. unfold pool_query.
  destruct (f _).
  { split; [by apply abort_open|]. by exists [], q. }
  destruct (exec q (db w)) as [[d0 rows]|] eqn:He.
  - split; [by eapply exec_open_tx|]. exists [(q, true)]. split; [done|].
    by constructor.
  - split; [by apply abort_open|]. by exists [], q.
Qed.

Lemma tx_body_bind {A B} (m : M A) (k : A → M B) :
  tx_body m → (∀ a, tx_body (k a)) → tx_body (m ≫= k).
Proof.
  intros Hm Hk f w t0 Ho. rewrite bind_run.
  specialize (Hm f w t0 Ho).
  destruct (m f w) as [[a|] w1]; [|done].
  destruct Hm as (Ho1 & l1 & Ht1 & Hl1).
  specialize (Hk a f w1 t0 Ho1).
  destruct (k a f w1) as [[b|] w2].
  - destruct Hk as (Ho2 & l2 & -> & Hl2). split; [done|]. exists (l1 ++ l2).
    rewrite Ht1, <- (assoc (++)). split; [done|]. by apply Forall_app.
  - destruct Hk as (Hd2 & l2 & q & -> & Hl2). split; [done|].
    exists (l1 ++ l2), q.
    rewrite Ht1, <- !(assoc (++)). split; [done|]. by apply Forall_app.
Qed.

Lemma tx_body_for_each {A} (l : list A) (body : A → M unit) :
  (∀ x, tx_body (body x)) → tx_body (for_each l body).
Proof.
  intros Hb. induction l as [|x l IH]; cbn.
  - apply tx_body_ret.
  - apply tx_body_bind; [apply Hb|done].
Qed.

Lemma tx_body_apply_transactions txs : tx_body (apply_transactions txs).
Proof.
  apply tx_body_for_each. intros tx.
  apply tx_body_bind; [|intros _];
    apply tx_body_for_each; intros x;
    (apply tx_body_bind; [by apply tx_body_pool_query|intros _; apply tx_body_ret]).
Qed.

(** The statements of the [try] block before [COMMIT]. *)
Lemma tx_body_deltas_and_append block :
  tx_body (apply_transactions (block_transactions block);;
           pool_query (InsertBlock (block_id block) (block_height block) block)).
Proof.
  apply tx_body_bind; [apply tx_body_apply_transactions|intros _].
  by apply tx_body_pool_query.
Qed.

Lemma bind_assoc {A B C} (m : M A) (k : A → M B) (g : B → M C) f w :
  ((m ≫= k) ≫= g) f w = (m ≫= (λ a, k a ≫= g)) f w.
Proof. rewrite !bind_run. by destruct (m f w) as [[a|] w1]. Qed.

(** The [catch] block: one [ROLLBACK], then the error goes on.  Whether the
    transaction is still open or was aborted by the error, and whether the
    [ROLLBACK] succeeds or not, the session ends at the tables saved at
    [BEGIN]. *)
Lemma catch_rollback {A} f w t0 :
  open_tx (db w) = Some t0 ∨ db w = mkDb t0 None →
  ∃ ok w0,
    (pool_query Rollback ≫= λ _, @throw A) f w = (Thrown, w0) ∧
    trace w0 = trace w ++ [(Rollback, ok)] ∧
    db w0 = mkDb t0 None.
Proof.
  intros Ho. rewrite bind_run.
  destruct (pool_query Rollback f w) as [[rows|] w0] eqn:Hq.
  - apply pool_query_returned in Hq as (_ & He & Ht). cbn in He.
    exists true, w0. split; [done|]. split; [done|].
    destruct Ho as [Ho|Ho]; rewrite Ho in He; cbn in He;
      by injection He as <- _.
  - apply pool_query_thrown in Hq as ->. eexists false, _.
    split; [done|]. split; [done|]. cbn.
    destruct Ho as [Ho|Ho]; [by apply abort_open|].
    rewrite Ho. by apply abort_closed.
Qed.

(** The outcomes of the transaction of [POST /blocks]. *)
Lemma apply_block_cases block f w :
  open_tx (db w) = None → Forall succeeded (trace w) →
  match apply_block block f w with
  | (Returned _, w0) => Forall succeeded (trace w0)
  | (Thrown, w0) =>
      db w0 = db w ∧
      ∃ pre q, Forall succeeded pre ∧
        (trace w0 = pre ++ [(q, false)] ∧ q = Begin ∨
         ∃ ok, trace w0 = pre ++ [(q, false); (Rollback, ok)])
  end.
Proof.
  intros Ho Hw. unfold apply_block. rewrite bind_run.
  destruct (pool_query Begin f w) as [[rows|] w1] eqn:Hb; cycle 1.
  { apply pool_query_thrown in Hb as ->. split; [by apply abort_closed|].
    exists (trace w), Begin. auto. }
  apply pool_query_returned in Hb as (_ & He & Ht1). cbn in He.
  rewrite Ho in He. injection He as Hd1 _.
  assert (open_tx (db w1) = Some (tables (db w))) as Ho1 by by rewrite <- Hd1.
  assert (mkDb (tables (db w)) None = db w) as Hdw.
  { destruct (db w) as [t o]. cbn in *. by subst o. }
  assert (Forall succeeded (trace w1)) as Hw1.
  { rewrite Ht1. apply Forall_app. split; [done|]. by constructor. }
  rewrite bind_run. unfold try_catch at 1. rewrite <- bind_assoc, bind_run.
  pose proof (tx_body_deltas_and_append block f w1 _ Ho1) as Hbody.
  destruct ((apply_transactions _ ≫= _) f w1) as [[rows2|] w2].
  - destruct Hbody as (Ho2 & l & Ht2 & Hl). rewrite bind_run.
    assert (Forall succeeded (trace w2)) as Hw2.
    { rewrite Ht2. by apply Forall_app. }
    destruct (pool_query Commit f w2) as [[rows3|] w3] eqn:Hc.
    + apply pool_query_returned in Hc as (_ & _ & Ht3). cbn. rewrite Ht3.
      apply Forall_app. split; [done|]. by constructor.
    + apply pool_query_thrown in Hc as ->.
      destruct (catch_rollback (A:=()) f
                  (mkWorld (abort (db w2)) (trace w2 ++ [(Commit, false)]))
                  (tables (db w)))
        as (ok & w0 & -> & Ht0 & Hd0); [right; by apply abort_open|].
      split; [by rewrite Hd0|].
      exists (trace w2), Commit. split; [done|]. right. exists ok.
      cbn in Ht0. by rewrite Ht0, <- (assoc (++)).
  - destruct Hbody as (Hd2 & l & q & Ht2 & Hl).
    destruct (catch_rollback (A:=()) f w2 (tables (db w)))
      as (ok & w0 & -> & Ht0 & Hd0); [by right|].
    split; [by rewrite Hd0|].
    exists (trace w1 ++ l), q. split; [by apply Forall_app|]. right. exists ok.
    by rewrite Ht0, Ht2, <- !(assoc (++)).
Qed.

(** ** The scenarios *)

(** C1, as the code has it (the scenario of section 8): on the empty
    database the block of height 1 whose only transaction [tx1] has no input
    and one output of 10 to [addr1], with the id [sha256("1" + "tx1")], is
    rejected with [UnbalancedTransaction], the sum of its inputs being 0 and
    that of its outputs 10, and nothing is changed; a balance query for
    [addr1] is answered [AddressNotFound], and is still after a rollback to
    height 0. *)
Theorem scenario_block1 :
  inputSum (mkTransaction "tx1" [] [mkOutput "addr1" 10]) = Num 0 ∧
  outputSum (mkTransaction "tx1" [] [mkOutput "addr1" 10]) = Num 10 ∧
  run (post_blocks block1) no_faults empty_db =
    (Returned UnbalancedTransaction, mkWorld empty_db [(SelectMaxHeight, true)]) ∧
  (run (get_balance "addr1") no_faults empty_db).1 = Returned AddressNotFound ∧
  let r := run (post_rollback (Some 0)) no_faults empty_db in
  r.1 = Returned RollbackCompleted ∧
  (run (get_balance "addr1") no_faults (db r.2)).1 = Returned AddressNotFound.
Proof.
  split; [done|]. split; [done|]. split; [by rewrite post_blocks_run|].
  split; [by rewrite get_balance_run|]. cbn zeta. split; [done|].
  apply get_balance_reachable; [|done].
  apply reachable_post_rollback, reachable_start.
Qed.

Lemma transfer1_added :
  run (post_blocks transfer1) no_faults empty_db =
  (Returned BlockAdded,
   mkWorld (mkDb (mkTables [mkBlockRow (block_id transfer1) 1 transfer1] ∅) None)
           [(SelectMaxHeight, true); (Begin, true);
            (UpdateBalanceSub (Some 10) (Some "alice"), true);
            (UpdateBalanceAdd (Some 10) (Some "bob"), true);
            (InsertBlock (block_id transfer1) 1 transfer1, true);
            (Commit, true)]).
Proof.
  rewrite post_blocks_run by done. cbn zeta.
  change (calculatedId transfer1) with (block_id transfer1).
  rewrite String.eqb_refl. reflexivity.
Qed.

(** C2, at a chain on which it fails: the block [transfer1], which moves 10
    from [alice] to [bob], is accepted on the empty database; folding its
    deltas from zero gives [bob] 10 and [alice] -10; after a rollback to
    height 1 the code has no balance for either of them. *)
Theorem rollback_loses_transfer :
  let r := run (post_blocks transfer1) no_faults empty_db in
  let d := db (run (post_rollback (Some 1)) no_faults (db r.2)).2 in
  r.1 = Returned BlockAdded ∧
  row_data <$> blocks (tables (db r.2)) = [transfer1] ∧
  fold_deltas [transfer1] "bob" = 10 ∧
  fold_deltas [transfer1] "alice" = -10 ∧
  balances (tables d) = ∅ ∧
  (run (get_balance "bob") no_faults d).1 = Returned AddressNotFound ∧
  (run (get_balance "alice") no_faults d).1 = Returned AddressNotFound.
Proof.
  cbn zeta. rewrite transfer1_added. cbn [fst snd db].
  split; [done|]. split; [done|]. split; [done|]. split; [done|].
  set (d0 := mkDb _ None).
  assert (reachable (db (run (post_rollback (Some 1)) no_faults d0).2)) as Hr.
  { apply reachable_post_rollback.
    pose proof (reachable_post_blocks _ transfer1 no_faults reachable_start) as Hr.
    by rewrite transfer1_added in Hr. }
  split; [by apply reachable_balances|].
  split; by apply get_balance_reachable.
Qed.

End Properties.

(** ** Reasoning with triples *)

Lemma hoare_ret {A} f (P : Db → Prop) (a : A) (Q : A → Db → Prop) E :
  (∀ d, P d → Q a d) → hoare f P (mret a) Q E.
Proof. intros HPQ w Hw. by apply HPQ. Qed.

Lemma hoare_throw {A} f (P : Db → Prop) (Q : A → Db → Prop) (E : Db → Prop) :
  (∀ d, P d → E d) → hoare f P throw Q E.
Proof. intros HPE w Hw. by apply HPE. Qed.

Lemma hoare_bind {A B} f P (m : M A) (k : A → M B) Q R E :
  hoare f P m Q E → (∀ a, hoare f (Q a) (k a) R E) → hoare f P (m ≫= k) R E.
Proof.
  intros Hm Hk w Hw. rewrite bind_run. specialize (Hm w Hw).
  destruct (m f w) as [[a|] w1]; [by apply Hk|done].
Qed.

Lemma hoare_try_catch {A} f P (m h : M A) Q E0 E :
  hoare f P m Q E0 → hoare f E0 h Q E → hoare f P (try_catch m h) Q E.
Proof.
  intros Hm Hh w Hw. unfold try_catch. specialize (Hm w Hw).
  destruct (m f w) as [[a|] w1]; [done|by apply Hh].
Qed.

Lemma hoare_weaken {A} f (P P0 : Db → Prop) (m : M A) (Q Q0 : A → Db → Prop)
    (E E0 : Db → Prop) :
  hoare f P0 m Q0 E0 →
  (∀ d, P d → P0 d) → (∀ a d, Q0 a d → Q a d) → (∀ d, E0 d → E d) →
  hoare f P m Q E.
Proof.
  intros Hm HP HQ HE w Hw. specialize (Hm w (HP _ Hw)).
  destruct (m f w) as [[a|] w1]; [by apply HQ|by apply HE].
Qed.

Lemma hoare_for_each {A} f (I : Db → Prop) (l : list A) (body : A → M unit) E :
  (∀ x, x ∈ l → hoare f I (body x) (λ _, I) E) →
  hoare f I (for_each l body) (λ _, I) E.
Proof.
  induction l as [|x l IH]; intros Hb; cbn.
  - by apply hoare_ret.
  - eapply hoare_bind; [apply Hb, list_elem_of_here|]. intros [].
    apply IH. intros y Hy. by apply Hb, list_elem_of_further.
Qed.

(** A statement: it succeeds as [exec] says, or fails and discards the open
    transaction, if there is one. *)
Lemma hoare_pool_query f (P : Db → Prop) q (Q : Rows → Db → Prop) (E : Db → Prop) :
  (∀ d, P d → E (abort d)) →
  (∀ d d0 rows, P d → exec q d = Some (d0, rows) → Q rows d0) →
  hoare f P (pool_query q) Q E.
Proof.
  intros HE HQ w Hw. unfold pool_query. destruct (f _); [by apply HE|].
  destruct (exec q (db w)) as [[d0 rows]|] eqn:He; [by eapply HQ|by apply HE].
Qed.

(** A statement when the store suffers no fault: only [exec] can fail. *)
Lemma hoare_pool_query_no_faults (P : Db → Prop) q (Q : Rows → Db → Prop)
    (E : Db → Prop) :
  (∀ d, P d → match exec q d with
              | Some (d0, rows) => Q rows d0
              | None => E (abort d)
              end) →
  hoare no_faults P (pool_query q) Q E.
Proof.
  intros HQ w Hw. unfold pool_query, no_faults. specialize (HQ _ Hw).
  by destruct (exec q (db w)) as [[d0 rows]|].
Qed.

Lemma hoare_run {A} f (P : Db → Prop) (m : M A) Q E d :
  hoare f P m Q E → P d →
  match run m f d with
  | (Returned a, w) => Q a (db w)
  | (Thrown, w) => E (db w)
  end.
Proof. intros Hm Hd. by apply (Hm (mkWorld d [])). Qed.

(** The [UPDATE]s change neither the chain nor the saved tables, and give
    no address a row. *)
Lemma exec_update q d d0 rows :
  is_update q = true → exec q d = Some (d0, rows) →
  blocks (tables d0) = blocks (tables d) ∧ open_tx d0 = open_tx d ∧
  dom (balances (tables d0)) = dom (balances (tables d)).
Proof.
  intros Hq He. destruct q; try done.
  - apply exec_update_sub_inv in He as (_ & t & Hu & ->). cbn.
    by apply update_balance_dom in Hu as [-> ->].
  - apply exec_update_add_inv in He as (_ & t & Hu & ->). cbn.
    by apply update_balance_dom in Hu as [-> ->].
Qed.

Section Triples.
Context {platform : Platform}.

(** The replay loops under an invariant that the [UPDATE]s keep. *)
Lemma hoare_apply_transactions f (I : Db → Prop) txs E :
  (∀ q, is_update q = true → hoare f I (pool_query q) (λ _, I) E) →
  hoare f I (apply_transactions txs) (λ _, I) E.
Proof.
  intros Hq. apply hoare_for_each. intros tx _.
  eapply hoare_bind; [|intros []];
    apply hoare_for_each; intros x _;
    (eapply hoare_bind with (Q := λ _, I);
     [by apply Hq|intros _; by apply hoare_ret]).
Qed.

(** A statement that keeps [I] when it succeeds. *)
Lemma hoare_pool_query_keeps f (I E : Db → Prop) q :
  (∀ d, I d → E (abort d)) →
  (∀ d d0 rows, I d → exec q d = Some (d0, rows) → I d0) →
  hoare f I (pool_query q) (λ _, I) E.
Proof. intros Ha Hq. apply hoare_pool_query; [done|]. exact Hq. Qed.

(** The [catch] block never returns. *)
Lemma hoare_catch {A} f (I E : Db → Prop) (Q : A → Db → Prop) :
  (∀ d, I d → E (abort d)) →
  (∀ d d0 rows, I d → exec Rollback d = Some (d0, rows) → E d0) →
  hoare f I (pool_query Rollback ≫= λ _, throw) Q E.
Proof.
  intros Ha Hr. eapply hoare_bind with (Q := λ _, E).
  - apply hoare_pool_query; [done|]. exact Hr.
  - intros _. by apply hoare_throw.
Qed.

(** ** What an accepted block is and does *)

Lemma js_or_zero_some z : js_or_zero (Some z) = z.
Proof. cbn. destruct (Z.eqb_spec z 0); done. Qed.

Lemma max_height_snoc l r :
  max_height (l ++ [r]) =
  Some (match max_height l with
        | None => row_height r
        | Some m => Z.max m (row_height r)
        end).
Proof. unfold max_height. rewrite fold_left_app. cbn. by case_match. Qed.

Lemma currentHeight_snoc d d0 r :
  blocks (tables d0) = blocks (tables d) ++ [r] →
  row_height r = currentHeight d + 1 →
  currentHeight d0 = row_height r.
Proof.
  unfold currentHeight. intros -> Hr. rewrite max_height_snoc, js_or_zero_some.
  destruct (max_height _) as [m|]; [|done].
  rewrite js_or_zero_some in Hr. lia.
Qed.

(** The transaction of [POST /blocks], when it returns: one row more in the
    chain, the same addresses in [balances], no transaction left open. *)
Lemma hoare_apply_block f block B D :
  hoare f (λ d, blocks (tables d) = B ∧ dom (balances (tables d)) = D)
        (apply_block block)
        (λ _ d, blocks (tables d) =
                  B ++ [mkBlockRow (block_id block) (block_height block) block] ∧
                dom (balances (tables d)) = D ∧ open_tx d = None)
        (λ _, True).
Proof.
  set (P := λ d, blocks (tables d) = B ∧ dom (balances (tables d)) = D).
  unfold apply_block.
  eapply hoare_bind with (Q := λ _, P).
  { apply hoare_pool_query; [done|]. intros d d0 rows Hd He. cbn in He.
    destruct (open_tx d); by injection He as <- _. }
  intros _. eapply hoare_bind; [|intros a; apply hoare_ret; intros d Hd; exact Hd].
  eapply hoare_try_catch with (E0 := λ _, True); [|by apply hoare_catch].
  eapply hoare_bind with (Q := λ _, P).
  { apply hoare_apply_transactions. intros q Hq.
    apply hoare_pool_query_keeps; [done|]. intros d d0 rows [Hb Hd] He.
    destruct (exec_update _ _ _ _ Hq He) as (Hb0 & _ & Hd0).
    unfold P. by rewrite Hb0, Hd0. }
  intros _.
  eapply hoare_bind with
    (Q := λ _ d, blocks (tables d) =
                   B ++ [mkBlockRow (block_id block) (block_height block) block] ∧
                 dom (balances (tables d)) = D).
  { apply hoare_pool_query; [done|]. intros d d0 rows [Hb Hd] He.
    apply exec_insert_inv in He as (_ & t & Hi & ->).
    unfold insert_block in Hi. destruct (existsb _ _); [done|].
    injection Hi as <-. cbn. by rewrite Hb. }
  intros _. eapply hoare_bind; [|intros a; apply hoare_ret; intros d Hd; exact Hd].
  apply hoare_pool_query; [done|]. intros d d0 rows [Hb Hd] He. cbn in He.
  by injection He as <- _.
Qed.

Lemma post_blocks_added block f d w :
  run (post_blocks block) f d = (Returned BlockAdded, w) →
  f 0%nat = false ∧ validated d block ∧
  apply_block block f (mkWorld d [(SelectMaxHeight, true)]) = (Returned BlockAdded, w).
Proof.
  destruct (f 0%nat) eqn:Hf.
  { unfold run, post_blocks. rewrite bind_run, pool_query_fault by done. done. }
  rewrite post_blocks_run by done. cbn zeta.
  destruct (Z.eqb_spec (block_height block) (currentHeight d + 1)) as [Hh|];
    [|done]. cbn [negb].
  destruct (first_unbalanced _) eqn:Hu; [done|].
  apply first_unbalanced_none in Hu.
  destruct (String.eqb_spec (block_id block) (calculatedId block)) as [Hi|];
    [|done]. cbn [negb]. intros Ha. done.
Qed.

(** X1.  A block is answered [Block added] only when the three checks hold
    on the session the request finds: its height is the current height plus
    one, each of its transactions passes the handler's comparison of the two
    sums, taken in the number type of the language, and its id is the
    recomputed one; a transaction whose amounts are non-negative with totals
    below 2^53 then conserves value.  This holds in every state and under
    every fault. *)
Theorem added_only_if_validated block f d w :
  run (post_blocks block) f d = (Returned BlockAdded, w) →
  validated d block ∧
  Forall (λ tx, sums_exact tx → conserves tx) (block_transactions block).
Proof.
  intros Hr. apply post_blocks_added in Hr as (_ & Hv & _). split; [done|].
  destruct Hv as (_ & Hb & _). eapply Forall_impl; [exact Hb|].
  intros tx Htx Hs. by apply balanced_conserves.
Qed.

(** X2.  When a block is answered [Block added], the chain is the old chain
    with one more row, that of the block; the addresses with a balance are
    the same; no transaction stays open; the current height is the height of
    the block; and the same block submitted again is answered
    [InvalidHeight]. *)
Theorem added_effect block f d w :
  run (post_blocks block) f d = (Returned BlockAdded, w) →
  blocks (tables (db w)) =
    blocks (tables d) ++ [mkBlockRow (block_id block) (block_height block) block] ∧
  dom (balances (tables (db w))) = dom (balances (tables d)) ∧
  open_tx (db w) = None ∧
  currentHeight (db w) = block_height block ∧
  ∀ f0, f0 0%nat = false →
    run (post_blocks block) f0 (db w) =
    (Returned InvalidHeight, mkWorld (db w) [(SelectMaxHeight, true)]).
Proof.
  intros Hr. apply post_blocks_added in Hr as (_ & (Hh & _ & _) & Ha).
  pose proof (hoare_apply_block f block (blocks (tables d))
                (dom (balances (tables d)))
                (mkWorld d [(SelectMaxHeight, true)]) (conj eq_refl eq_refl))
    as Hb.
  rewrite Ha in Hb. destruct Hb as (Hb & Hd & Ho).
  assert (currentHeight (db w) = block_height block) as Hc.
  { by rewrite (currentHeight_snoc d (db w) _ Hb). }
  repeat split; try done.
  intros f0 Hf0. rewrite post_blocks_run by done. cbn zeta.
  destruct (Z.eqb_spec (block_height block) (currentHeight (db w) + 1));
    [lia|done].
Qed.

(** ** The chain in the reachable states *)

Lemma existsb_row_id id (l : list BlockRow) :
  existsb (λ r, String.eqb (row_id r) id) l = true ↔ id ∈ row_id <$> l.
Proof.
  induction l as [|r l IH]; cbn.
  - split; [done|]. intros Hin. by apply elem_of_nil in Hin.
  - rewrite elem_of_cons, <- IH, orb_true_iff, String.eqb_eq. naive_solver.
Qed.

Lemma numbered_length l :
  numbered_from_one l → js_or_zero (max_height l) = Z.of_nat (length l).
Proof.
  intros Hn. pose proof (max_height_spec l) as Hm.
  destruct (max_height l) as [x|]; [|by subst l].
  destruct Hm as [Hall (r & Hr & Hx)]. rewrite js_or_zero_some.
  apply list_elem_of_lookup in Hr as [i Hi].
  pose proof (lookup_lt_Some _ _ _ Hi) as Hlt.
  rewrite (Hn _ _ Hi) in Hx.
  destruct (lookup_lt_is_Some_2 l (length l - 1)) as [r0 Hr0]; [lia|].
  pose proof (Hall r0 (list_elem_of_lookup_2 _ _ _ Hr0)) as Hle.
  rewrite (Hn _ _ Hr0) in Hle. lia.
Qed.

(** [DELETE ... WHERE height > h] on rows of heights [a], [a + 1], ...
    keeps the first [h + 1 - a] of them. *)
Lemma filter_numbered (a h : Z) (l : list BlockRow) :
  (∀ (i : nat) r, l !! i = Some r → row_height r = a + Z.of_nat i) →
  List.filter (λ r, negb (h <? row_height r)) l = take (Z.to_nat (h + 1 - a)) l.
Proof.
  revert a. induction l as [|r l IH]; intros a Hn; [by rewrite take_nil|].
  pose proof (Hn 0%nat r eq_refl) as Hr.
  assert (List.filter (λ r, negb (h <? row_height r)) l
          = take (Z.to_nat (h + 1 - (a + 1))) l) as Hl.
  { apply IH. intros i r0 Hi. rewrite (Hn (S i) r0 Hi). lia. }
  cbn [List.filter]. rewrite Hl.
  destruct (Z.ltb_spec h (row_height r)) as [Hlt|Hge]; cbn [negb].
  - replace (Z.to_nat (h + 1 - (a + 1))) with 0%nat by lia.
    replace (Z.to_nat (h + 1 - a)) with 0%nat by lia. done.
  - replace (Z.to_nat (h + 1 - a)) with (S (Z.to_nat (h + 1 - (a + 1)))) by lia.
    done.
Qed.

Lemma delete_blocks_above_take h t :
  numbered_from_one (blocks t) →
  blocks (delete_blocks_above (Some h) t) = take (Z.to_nat h) (blocks t).
Proof.
  intros Hn. cbn. rewrite (filter_numbered 1).
  - f_equal. lia.
  - intros i r Hi. rewrite (Hn _ _ Hi). lia.
Qed.

Lemma blocks_wf_take n l : blocks_wf l → blocks_wf (take n l).
Proof.
  intros (Hn & Hv & Hd). split; [|split].
  - intros i r Hi. apply lookup_take_Some in Hi as [Hi _]. by apply Hn.
  - by apply Forall_take.
  - rewrite fmap_take. eapply sublist_NoDup; [exact Hd|apply sublist_take].
Qed.

Lemma blocks_wf_snoc l r :
  blocks_wf l → row_valid r →
  row_height r = Z.of_nat (length l) + 1 → row_id r ∉ row_id <$> l →
  blocks_wf (l ++ [r]).
Proof.
  intros (Hn & Hv & Hd) Hr Hh Hid. split; [|split].
  - intros i r0 Hi. apply lookup_snoc_Some in Hi as [[_ Hi]|[-> <-]];
      [by apply Hn|done].
  - apply Forall_app. split; [done|]. by constructor.
  - rewrite fmap_app. apply NoDup_app. split; [done|]. split.
    + intros x Hx Hx0. apply list_elem_of_singleton in Hx0. by subst x.
    + apply NoDup_singleton.
Qed.

(** Every statement but the [INSERT] keeps the chain of the session, and
    the one that a [ROLLBACK] would restore, well formed. *)
Lemma exec_session_wf q d d0 rows :
  (if q is InsertBlock _ _ _ then False else True) →
  session_wf d → exec q d = Some (d0, rows) → session_wf d0.
Proof.
  intros Hq [Ht Ho] He. unfold session_wf, chain_wf in *.
  destruct q; try done.
  - cbn in He. by injection He as <- _.
  - cbn in He. destruct (open_tx d) as [t0|] eqn:Hopen; injection He as <- _; cbn.
    + by rewrite Hopen.
    + split; [done|]. by intros t0 [= <-].
  - cbn in He. injection He as <- _. cbn. done.
  - cbn in He. destruct (open_tx d) as [t0|] eqn:Hopen; injection He as <- _; cbn.
    + split; [by apply Ho|done].
    + by rewrite Hopen.
  - apply exec_update_sub_inv in He as (_ & t & Hu & ->). cbn.
    by apply update_balance_dom in Hu as [_ ->].
  - apply exec_update_add_inv in He as (_ & t & Hu & ->). cbn.
    by apply update_balance_dom in Hu as [_ ->].
  - cbn in He. by injection He as <- _.
  - apply exec_delete_inv in He as (_ & ->). cbn. split; [|done].
    destruct height as [h|]; [|done].
    rewrite delete_blocks_above_take by apply Ht. by apply blocks_wf_take.
  - cbn in He. injection He as <- _. cbn. done.
  - cbn in He. by injection He as <- _.
Qed.

Lemma session_wf_abort d : session_wf d → session_wf (abort d).
Proof.
  intros [Ht Ho]. unfold abort. destruct (open_tx d) as [t0|] eqn:Hopen.
  - split; [by apply Ho|done].
  - split; [done|]. intros t1 H1. by rewrite Hopen in H1.
Qed.

(** The [INSERT] of a block that passed the checks. *)
Lemma exec_insert_session_wf block d d0 rows :
  validated d block → session_wf d →
  exec (InsertBlock (block_id block) (block_height block) block) d
  = Some (d0, rows) →
  session_wf d0.
Proof.
  intros (Hh & Hc & Hi) [Ht Ho] He.
  apply exec_insert_inv in He as (_ & t & He & ->). unfold insert_block in He.
  destruct (existsb _ _) eqn:Hex; [done|]. injection He as <-.
  split; [|done]. unfold chain_wf. cbn. apply blocks_wf_snoc; [done|done|..].
  - cbn. rewrite Hh. unfold currentHeight.
    by rewrite (numbered_length _ (proj1 Ht)).
  - cbn. intros Hin. apply existsb_row_id in Hin. congruence.
Qed.

Lemma hoare_apply_block_wf f block B :
  block_height block = js_or_zero (max_height B) + 1 →
  Forall balanced (block_transactions block) →
  block_id block = calculatedId block →
  hoare f (λ d, session_wf d ∧ blocks (tables d) = B) (apply_block block)
        (λ _, session_wf) session_wf.
Proof.
  intros Hh Hc Hi. set (J := λ d, session_wf d ∧ blocks (tables d) = B).
  assert (∀ q, (if q is InsertBlock _ _ _ then False else True) →
               hoare f session_wf (pool_query q) (λ _, session_wf) session_wf)
    as Hkeep.
  { intros q Hq. apply hoare_pool_query_keeps; [apply session_wf_abort|].
    intros d d0 rows. by apply (exec_session_wf q). }
  unfold apply_block.
  eapply hoare_bind with (Q := λ _, J).
  { apply hoare_pool_query; [intros d [Hd _]; by apply session_wf_abort|].
    intros d d0 rows [Hd Hb] He.
    split; [by apply (exec_session_wf Begin d d0 rows)|].
    cbn in He. destruct (open_tx d); by injection He as <- _. }
  intros _. eapply hoare_bind with (Q := λ _, session_wf);
    [|intros a; by apply hoare_ret].
  eapply hoare_try_catch with (E0 := session_wf);
    [|apply hoare_catch; [apply session_wf_abort|];
      intros d d0 rows; by apply (exec_session_wf Rollback)].
  eapply hoare_bind with (Q := λ _, J).
  { apply hoare_apply_transactions. intros q Hq.
    apply hoare_pool_query_keeps; [intros d [Hd _]; by apply session_wf_abort|].
    intros d d0 rows [Hd Hb] He. split.
    - apply (exec_session_wf q d d0 rows); [by destruct q|done..].
    - by destruct (exec_update _ _ _ _ Hq He) as (-> & _ & _). }
  intros _. eapply hoare_bind with (Q := λ _, session_wf).
  { apply hoare_pool_query; [intros d [Hd _]; by apply session_wf_abort|].
    intros d d0 rows [Hd Hb] He.
    apply (exec_insert_session_wf block d d0 rows); [|done..].
    split; [|done]. unfold currentHeight. by rewrite Hb. }
  intros _. eapply hoare_bind with (Q := λ _, session_wf);
    [by apply Hkeep|intros a; by apply hoare_ret].
Qed.

Lemma hoare_post_blocks_wf f block :
  hoare f session_wf (post_blocks block) (λ _, session_wf) session_wf.
Proof.
  unfold post_blocks.
  eapply hoare_bind with
    (Q := λ rows d, session_wf d ∧
                    rows = HeightRow (max_height (blocks (tables d)))).
  { apply hoare_pool_query; [apply session_wf_abort|].
    intros d d0 rows Hd He. cbn in He. by injection He as <- <-. }
  intros rows. cbn zeta.
  destruct (Z.eqb_spec (block_height block)
              (js_or_zero (rows_height rows) + 1)) as [Hh|];
    [|apply hoare_ret; by intros d [Hd _]]. cbn [negb].
  destruct (first_unbalanced _) eqn:Hu; [apply hoare_ret; by intros d [Hd _]|].
  apply first_unbalanced_none in Hu.
  destruct (String.eqb_spec (block_id block) (calculatedId block)) as [Hi|];
    [|apply hoare_ret; by intros d [Hd _]]. cbn [negb].
  intros w [Hw Hrows]. subst rows. cbn in Hh.
  by apply (hoare_apply_block_wf f block (blocks (tables (db w))) Hh Hu Hi w).
Qed.

Lemma hoare_get_balance_wf f address :
  hoare f session_wf (get_balance address) (λ _, session_wf) session_wf.
Proof.
  unfold get_balance. eapply hoare_bind with (Q := λ _, session_wf).
  - apply hoare_pool_query_keeps; [apply session_wf_abort|].
    intros d d0 rows. by apply (exec_session_wf (SelectBalance address)).
  - intros rows. case_match; by apply hoare_ret.
Qed.

Lemma hoare_post_rollback_wf f height :
  hoare f session_wf (post_rollback height) (λ _, session_wf) session_wf.
Proof.
  assert (∀ q, (if q is InsertBlock _ _ _ then False else True) →
               hoare f session_wf (pool_query q) (λ _, session_wf) session_wf)
    as Hkeep.
  { intros q Hq. apply hoare_pool_query_keeps; [apply session_wf_abort|].
    intros d d0 rows. by apply (exec_session_wf q). }
  unfold post_rollback.
  eapply hoare_bind with (Q := λ _, session_wf); [by apply Hkeep|intros _].
  eapply hoare_bind with (Q := λ _, session_wf);
    [|intros a; by apply hoare_ret].
  eapply hoare_try_catch with (E0 := session_wf);
    [|apply hoare_catch; [apply session_wf_abort|];
      intros d d0 rows; by apply (exec_session_wf Rollback)].
  eapply hoare_bind with (Q := λ _, session_wf); [by apply Hkeep|intros _].
  eapply hoare_bind with (Q := λ _, session_wf); [by apply Hkeep|intros _].
  eapply hoare_bind with (Q := λ _, session_wf); [by apply Hkeep|intros rows].
  eapply hoare_bind with (Q := λ _, session_wf).
  - apply hoare_for_each. intros data _.
    eapply hoare_bind with (Q := λ _, session_wf).
    + unfold JSON_parse. case_match; [by apply hoare_ret|by apply hoare_throw].
    + intros block. apply hoare_apply_transactions. intros q Hq.
      apply Hkeep. by destruct q.
  - intros _. eapply hoare_bind with (Q := λ _, session_wf);
      [by apply Hkeep|intros a; by apply hoare_ret].
Qed.

Lemma reachable_session_wf d : reachable d → session_wf d.
Proof.
  induction 1 as [|d block f _ IH|d address f _ IH|d height f _ IH].
  - split; [|done]. split; [|split]; cbn.
    + intros i r Hi. done.
    + constructor.
    + constructor.
  - pose proof (hoare_run f _ _ _ _ d (hoare_post_blocks_wf f block) IH) as Hr.
    by destruct (run _ f d) as [[a|] w].
  - pose proof (hoare_run f _ _ _ _ d (hoare_get_balance_wf f address) IH) as Hr.
    by destruct (run _ f d) as [[a|] w].
  - pose proof (hoare_run f _ _ _ _ d (hoare_post_rollback_wf f height) IH) as Hr.
    by destruct (run _ f d) as [[a|] w].
Qed.

(** X3.  In every reachable state the accepted heights are 1, 2, 3, ... in
    the order in which the blocks were accepted, without gap or repeat, and
    the current height is the number of blocks in the chain. *)
Theorem reachable_heights d :
  reachable d →
  (∀ (i : nat) r, blocks (tables d) !! i = Some r → row_height r = Z.of_nat i + 1) ∧
  currentHeight d = Z.of_nat (length (blocks (tables d))).
Proof.
  intros Hr. destruct (reachable_session_wf d Hr) as [(Hn & _ & _) _].
  split; [exact Hn|]. by apply numbered_length.
Qed.

(** X4.  In every reachable state each row of the chain is the row of a
    block that passed the checks: the columns [id] and [height] are those of
    the stored block; each of its transactions passed the handler's
    comparison of the two sums, taken in the number type of the language, so
    that it conserves value when its amounts are non-negative with totals
    below 2^53; its id is the recomputed one; and no two rows have the same
    id. *)
Theorem reachable_rows_valid d :
  reachable d →
  Forall (λ r, row_id r = block_id (row_data r) ∧
               row_height r = block_height (row_data r) ∧
               Forall balanced (block_transactions (row_data r)) ∧
               Forall (λ tx, sums_exact tx → conserves tx)
                      (block_transactions (row_data r)) ∧
               block_id (row_data r) = calculatedId (row_data r))
         (blocks (tables d)) ∧
  NoDup (row_id <$> blocks (tables d)).
Proof.
  intros Hr. destruct (reachable_session_wf d Hr) as [(_ & Hv & Hd) _].
  split; [|done]. eapply Forall_impl; [exact Hv|].
  intros r (Hi & Hh & Hb & Hc). repeat split; try done.
  eapply Forall_impl; [exact Hb|]. intros tx Htx Hs.
  by apply balanced_conserves.
Qed.

(** ** Rollback *)

Lemma exec_in_range q d d0 rows :
  exec q d = Some (d0, rows) → in_range q = true.
Proof.
  intros He. destruct q; try done.
  - by apply exec_update_sub_inv in He as [? _].
  - by apply exec_update_add_inv in He as [? _].
  - by apply exec_insert_inv in He as [? _].
  - by apply exec_delete_inv in He as [? _].
Qed.

Lemma exec_update_absent q d :
  is_update q = true → in_range q = true → balances (tables d) = ∅ →
  exec q d = Some (d, NoRows).
Proof.
  intros Hq Hr He. destruct d as [t o]. cbn in He.
  destruct q; try done; cbn in Hr; cbn; rewrite Hr;
    rewrite update_balance_absent; try done;
    intros x _; by rewrite He, lookup_empty.
Qed.

(** A statement that succeeds whenever its parameters are in range, under
    faults of any kind: when it returns, it did what [exec] says. *)
Lemma hoare_pool_query_total f q (P : Db → Prop) (Q : Rows → Db → Prop) :
  (∀ d, P d → in_range q = true →
        ∃ d0 rows, exec q d = Some (d0, rows) ∧ Q rows d0) →
  hoare f P (pool_query q) Q (λ _, True).
Proof.
  intros HQ. apply hoare_pool_query; [done|]. intros d d0 rows Hd He.
  destruct (HQ d Hd (exec_in_range _ _ _ _ He)) as (d1 & rows1 & He1 & HQ1).
  congruence.
Qed.

(** The same statement when the store suffers no fault and the parameters
    are in range: it returns. *)
Lemma hoare_pool_query_total_no_faults q (P : Db → Prop)
    (Q : Rows → Db → Prop) (c : Prop) :
  in_range q = true →
  (∀ d, P d → in_range q = true →
        ∃ d0 rows, exec q d = Some (d0, rows) ∧ Q rows d0) →
  hoare no_faults P (pool_query q) Q (λ _, c).
Proof.
  intros Hr HQ. apply hoare_pool_query_no_faults. intros d Hd.
  by destruct (HQ d Hd Hr) as (d1 & rows1 & -> & HQ1).
Qed.

Lemma hoare_JSON_parse f (I : Db → Prop) data :
  hoare f I (JSON_parse data) (λ _, I) (λ _, True).
Proof.
  unfold JSON_parse. case_match; [by apply hoare_ret|by apply hoare_throw].
Qed.

Lemma hoare_JSON_parse_text f (I : Db → Prop) data (c : Prop) :
  jsonb_as_text = true → hoare f I (JSON_parse data) (λ _, I) (λ _, c).
Proof. intros Ht. unfold JSON_parse. rewrite Ht. by apply hoare_ret. Qed.

(** The handler of [POST /rollback] from tables [T].  [ranged] says of which
    statements the rule [Hstmt] is asked: of all of them, or only of those
    whose parameters are in range; [c] is what is known of a session in which
    a statement failed. *)
Lemma hoare_post_rollback_result f (ranged : Query → Prop) (c : Prop) T height :
  (∀ q (P : Db → Prop) (Q : Rows → Db → Prop),
     ranged q →
     (∀ d, P d → in_range q = true →
           ∃ d0 rows, exec q d = Some (d0, rows) ∧ Q rows d0) →
     hoare f P (pool_query q) Q (λ _, c)) →
  (∀ (I : Db → Prop) data,
     data ∈ row_data <$> blocks (delete_blocks_above height T) →
     hoare f I (JSON_parse data) (λ _, I) (λ _, c)) →
  (∀ q, in_range q = true → ranged q) →
  ranged (DeleteBlocksAbove height) →
  (∀ r tx input, r ∈ blocks (delete_blocks_above height T) →
     tx ∈ block_transactions (row_data r) → input ∈ tx_inputs tx →
     ranged (UpdateBalanceSub (input_value input) (input_address input))) →
  (∀ r tx output, r ∈ blocks (delete_blocks_above height T) →
     tx ∈ block_transactions (row_data r) → output ∈ tx_outputs tx →
     ranged (UpdateBalanceAdd (Some (output_value output))
                              (Some (output_address output)))) →
  hoare f (λ d, tables d = T) (post_rollback height)
        (λ r d, r = RollbackCompleted ∧
                d = mkDb (mkTables (blocks (delete_blocks_above height T)) ∅) None)
        (λ _, c).
Proof.
  intros Hstmt Hparse Hranged Hdel Hsub Hadd.
  set (T1 := mkTables _ ∅). unfold post_rollback.
  eapply hoare_bind with (Q := λ _ d, tables d = T).
  { apply Hstmt; [by apply Hranged|]. intros d Hd _. cbn.
    destruct (open_tx d); eauto. }
  intros _. eapply hoare_bind with (Q := λ _ d, d = mkDb T1 None);
    [|intros a; by apply hoare_ret].
  eapply hoare_try_catch with (E0 := λ _, c); [|by apply hoare_catch].
  eapply hoare_bind with (Q := λ _ d, tables d = delete_blocks_above height T).
  { apply Hstmt; [done|]. intros d Hd Hr. cbn in Hr. cbn. rewrite Hr.
    eexists _, _. split; [done|]. by rewrite Hd. }
  intros _. eapply hoare_bind with (Q := λ _ d, tables d = T1).
  { apply Hstmt; [by apply Hranged|]. intros d Hd _. cbn.
    eexists _, _. split; [done|]. cbn. by rewrite Hd. }
  intros _. eapply hoare_bind with
    (Q := λ rows d, tables d = T1 ∧
                    rows_data rows = row_data <$> order_by_height (blocks T1)).
  { apply Hstmt; [by apply Hranged|]. intros d Hd _. cbn.
    eexists _, _. split; [done|]. by rewrite Hd. }
  intros rows. eapply hoare_bind with (Q := λ _ d, tables d = T1).
  - apply hoare_weaken with
      (P0 := λ d, tables d = T1 ∧
                  rows_data rows = row_data <$> order_by_height (blocks T1))
      (Q0 := λ _ d, tables d = T1 ∧
                    rows_data rows = row_data <$> order_by_height (blocks T1))
      (E0 := λ _, c); [|done|by intros _ d [Hd _]|done].
    apply hoare_for_each. intros data Hdata.
    apply hoare_weaken with
      (P0 := λ d, rows_data rows = row_data <$> order_by_height (blocks T1) ∧
                  tables d = T1)
      (Q0 := λ _ d, rows_data rows = row_data <$> order_by_height (blocks T1) ∧
                    tables d = T1)
      (E0 := λ _, c); [|by intros d [? ?]|by intros _ d [? ?]|done].
    intros w [Hrows Hw]. revert w Hw.
    change (hoare f (λ d, tables d = T1)
              (JSON_parse data ≫= λ block,
                 apply_transactions (block_transactions block))
              (λ _ d, rows_data rows = row_data <$> order_by_height (blocks T1) ∧
                      tables d = T1)
              (λ _, c)).
    assert (∃ r, r ∈ blocks (delete_blocks_above height T) ∧ row_data r = data)
      as (r & Hr & <-).
    { rewrite Hrows in Hdata. apply list_elem_of_fmap in Hdata as (r & -> & Hr).
      exists r. split; [|done]. by rewrite order_by_height_perm in Hr. }
    eapply hoare_bind with (Q := λ block d, block = row_data r ∧ tables d = T1).
    { unfold JSON_parse.
      pose proof (Hparse (λ d, tables d = T1) (row_data r)
                    (list_elem_of_fmap_2 row_data _ _ Hr)) as Hp.
      unfold JSON_parse in Hp. destruct jsonb_as_text.
      - by apply hoare_ret.
      - intros w Hw. by apply (Hp w Hw). }
    intros block.
    apply hoare_weaken with
      (P0 := λ d, block = row_data r ∧ tables d = T1)
      (Q0 := λ _ d, block = row_data r ∧ tables d = T1)
      (E0 := λ _, c); [|done|by intros _ d [_ ?]|done].
    apply hoare_for_each. intros tx Htx.
    eapply hoare_bind with (Q := λ _ d, block = row_data r ∧ tables d = T1);
      [|intros []].
    + apply hoare_for_each. intros input Hin.
      eapply hoare_bind with (Q := λ _ d, block = row_data r ∧ tables d = T1);
        [|intros a; by apply hoare_ret].
      intros w [Hb Hw]. revert w Hw. subst block.
      change (hoare f (λ d, tables d = T1)
                (pool_query (UpdateBalanceSub (input_value input)
                                              (input_address input)))
                (λ _ d, row_data r = row_data r ∧ tables d = T1) (λ _, c)).
      apply Hstmt; [by eapply Hsub|]. intros d Hd Hrange.
      exists d, NoRows. split; [|done].
      apply exec_update_absent; [done|done|]. by rewrite Hd.
    + apply hoare_for_each. intros output Hout.
      eapply hoare_bind with (Q := λ _ d, block = row_data r ∧ tables d = T1);
        [|intros a; by apply hoare_ret].
      intros w [Hb Hw]. revert w Hw. subst block.
      change (hoare f (λ d, tables d = T1)
                (pool_query (UpdateBalanceAdd (Some (output_value output))
                                              (Some (output_address output))))
                (λ _ d, row_data r = row_data r ∧ tables d = T1) (λ _, c)).
      apply Hstmt; [by eapply Hadd|]. intros d Hd Hrange.
      exists d, NoRows. split; [|done].
      apply exec_update_absent; [done|done|]. by rewrite Hd.
  - intros _. eapply hoare_bind with (Q := λ _ d, d = mkDb T1 None);
      [|intros a; by apply hoare_ret].
    apply Hstmt; [by apply Hranged|]. intros d Hd _. cbn.
    eexists _, _. split; [done|]. by rewrite Hd.
Qed.

Lemma post_rollback_returned_db height f d r w :
  run (post_rollback height) f d = (Returned r, w) →
  db w = mkDb (mkTables (blocks (delete_blocks_above height (tables d))) ∅) None.
Proof.
  intros Hr.
  pose proof (hoare_run f _ _ _ _ d
                (hoare_post_rollback_result f (λ _, True) True (tables d) height
                   (λ q P Q _, hoare_pool_query_total f q P Q)
                   (λ I data _, hoare_JSON_parse f I data)
                   (λ _ _, I) I (λ _ _ _ _ _ _, I) (λ _ _ _ _ _ _, I))
                eq_refl) as Hh.
  rewrite Hr in Hh. by destruct Hh as [_ ->].
Qed.

(** A rollback completes when the store suffers no fault, the target height
    and the amounts of the stored blocks are in the range of [INTEGER], and
    the rows that remain, if there are any, come back as text. *)
Lemma post_rollback_completes height d :
  jsonb_as_text = true ∨ blocks (delete_blocks_above height (tables d)) = [] →
  int4_param height = true →
  Forall (λ r, Forall amounts_int4 (block_transactions (row_data r)))
         (blocks (tables d)) →
  ∃ w, run (post_rollback height) no_faults d = (Returned RollbackCompleted, w) ∧
       db w = mkDb (mkTables (blocks (delete_blocks_above height (tables d))) ∅)
                   None.
Proof.
  intros Ht Hh Ha.
  assert (∀ r, r ∈ blocks (delete_blocks_above height (tables d)) →
               r ∈ blocks (tables d)) as Hsub.
  { intros r. destruct height as [h|]; [|done]. cbn.
    rewrite list_elem_of_In, filter_In, <- list_elem_of_In. tauto. }
  rewrite Forall_forall in Ha.
  pose proof (hoare_post_rollback_result no_faults
                (λ q, in_range q = true) False (tables d) height
                (λ q P Q, hoare_pool_query_total_no_faults q P Q False))
    as Hh0.
  lazymatch type of Hh0 with
  | ?A → _ => assert A as H1
  end.
  { intros I data Hdata. destruct Ht as [Ht|Ht].
    - by apply hoare_JSON_parse_text.
    - rewrite Ht in Hdata. by apply elem_of_nil in Hdata. }
  specialize (Hh0 H1 (λ _ H, H) Hh).
  lazymatch type of Hh0 with
  | ?A → _ => assert A as H2
  end.
  { intros r tx input Hr Htx Hin. cbn.
    specialize (Ha r (Hsub r Hr)). rewrite Forall_forall in Ha.
    destruct (Ha tx Htx) as [Hi _]. rewrite Forall_forall in Hi. by apply Hi. }
  specialize (Hh0 H2).
  lazymatch type of Hh0 with
  | ?A → _ => assert A as H3
  end.
  { intros r tx output Hr Htx Hout. cbn.
    specialize (Ha r (Hsub r Hr)). rewrite Forall_forall in Ha.
    destruct (Ha tx Htx) as [_ Ho]. rewrite Forall_forall in Ho. by apply Ho. }
  specialize (Hh0 H3).
  pose proof (hoare_run no_faults _ _ _ _ d Hh0 eq_refl) as Hrun.
  clear Hh0. rename Hrun into Hh0.
  destruct (run _ no_faults d) as [[r|] w]; [|done].
  destruct Hh0 as [-> Hd]. by exists w.
Qed.

(** X5.  A rollback that returns leaves exactly the rows of the chain
    whose height is not above the target, in their order, an empty table of
    balances and no transaction open; when the request has no [height]
    parameter, no row of the chain is deleted. *)
Theorem rollback_returned_effect height f d r w :
  run (post_rollback height) f d = (Returned r, w) →
  db w = mkDb (mkTables (blocks (delete_blocks_above height (tables d))) ∅) None ∧
  blocks (tables (db w)) =
    match height with
    | Some h => List.filter (λ row, negb (h <? row_height row)) (blocks (tables d))
    | None => blocks (tables d)
    end.
Proof.
  intros Hr. apply post_rollback_returned_db in Hr. split; [done|].
  rewrite Hr. by destruct height.
Qed.

(** X6.  From a reachable state, a rollback to [h] that returns keeps the
    first [h] blocks of the chain (none when [h] is negative, all when [h] is
    above the current height); the current height becomes [h] cut to the
    range from 0 to the old current height, and the only height that is then
    accepted is one more than that. *)
Theorem rollback_then_height d h f r w :
  reachable d →
  run (post_rollback (Some h)) f d = (Returned r, w) →
  blocks (tables (db w)) = take (Z.to_nat h) (blocks (tables d)) ∧
  currentHeight (db w) = Z.max 0 (Z.min h (currentHeight d)) ∧
  ∀ block f0,
    f0 0%nat = false →
    block_height block ≠ Z.max 0 (Z.min h (currentHeight d)) + 1 →
    run (post_blocks block) f0 (db w) =
    (Returned InvalidHeight, mkWorld (db w) [(SelectMaxHeight, true)]).
Proof.
  intros Hreach Hr. apply post_rollback_returned_db in Hr.
  destruct (reachable_session_wf d Hreach) as [Hwf _].
  assert (blocks (tables (db w)) = take (Z.to_nat h) (blocks (tables d))) as Hb.
  { rewrite Hr. cbn [tables blocks]. apply delete_blocks_above_take, Hwf. }
  assert (currentHeight (db w) = Z.max 0 (Z.min h (currentHeight d))) as Hc.
  { unfold currentHeight. rewrite Hb.
    rewrite (numbered_length (take _ _)) by apply (blocks_wf_take _ _ Hwf).
    rewrite (numbered_length (blocks _)) by apply Hwf.
    rewrite length_take. lia. }
  split; [done|]. split; [done|].
  intros block f0 Hf0 Hne. rewrite post_blocks_run by done. cbn zeta.
  destruct (Z.eqb_spec (block_height block) (currentHeight (db w) + 1));
    [|done]. congruence.
Qed.

(** X7.  A rollback completes, with the reply [Rollback completed], when
    the store suffers no fault, the target height is absent or in the range
    of [INTEGER], the amounts of the stored blocks are in that range, and
    either the driver returns the column [data] as text or no block remains
    in the chain: the session is then the chain cut at the target height,
    with an empty table of balances. *)
Theorem rollback_completes height d :
  jsonb_as_text = true ∨ blocks (delete_blocks_above height (tables d)) = [] →
  int4_param height = true →
  Forall (λ r, Forall amounts_int4 (block_transactions (row_data r)))
         (blocks (tables d)) →
  (run (post_rollback height) no_faults d).1 = Returned RollbackCompleted ∧
  db (run (post_rollback height) no_faults d).2 =
    mkDb (mkTables (blocks (delete_blocks_above height (tables d))) ∅) None.
Proof.
  intros Ht Hh Ha.
  destruct (post_rollback_completes height d Ht Hh Ha) as (w & -> & Hd).
  done.
Qed.

(** The [try] block of [POST /rollback] does not end the transaction. *)
Lemma post_rollback_thrown height f d w :
  open_tx d = None →
  run (post_rollback height) f d = (Thrown, w) →
  (∃ pre, trace w = pre ++ [(Begin, false)]) ∧ db w = d ∨
  ∃ pre ok, trace w = pre ++ [(Rollback, ok)] ∧ (ok = true → db w = d).
Proof.
  intros Ho. unfold run, post_rollback. rewrite bind_run.
  destruct (pool_query Begin f _) as [[rows|] w1] eqn:Hb; cycle 1.
  { apply pool_query_thrown in Hb as ->. intros [= <-]. left.
    split; [by exists []|]. cbn. by apply abort_closed. }
  apply pool_query_returned in Hb as (_ & He & _). cbn in He.
  rewrite Ho in He. injection He as Hd1 _.
  assert (open_tx (db w1) = Some (tables d)) as Ho1 by by rewrite <- Hd1.
  assert (mkDb (tables d) None = d) as Hd.
  { destruct d as [t o]. cbn in *. by subst o. }
  rewrite bind_run. unfold try_catch at 1.
  set (O := λ d0, open_tx d0 = Some (tables d)).
  set (E := λ d0, open_tx d0 = Some (tables d) ∨ d0 = mkDb (tables d) None).
  assert (∀ d0, O d0 → E (abort d0)) as Hab.
  { intros d0 Hd0. right. by apply abort_open. }
  lazymatch goal with
  | |- context [match ?b f w1 with _ => _ end] =>
      assert (hoare f O b (λ _ _, True) E) as Hbody
  end.
  { assert (∀ q, is_data_statement q = true →
                 hoare f O (pool_query q) (λ _, O) E) as Hq.
    { intros q Hq. apply hoare_pool_query_keeps; [done|].
      intros d0 d1 rows0 Hd0 He. by apply (exec_open_tx q d0 d1 rows0). }
    eapply hoare_bind with (Q := λ _, O); [by apply Hq|intros _].
    eapply hoare_bind with (Q := λ _, O); [by apply Hq|intros _].
    eapply hoare_bind with (Q := λ _, O); [by apply Hq|intros rows0].
    eapply hoare_bind with (Q := λ _, O).
    - apply hoare_for_each. intros data _.
      eapply hoare_bind with (Q := λ _, O).
      + unfold JSON_parse.
        case_match; [by apply hoare_ret|apply hoare_throw; by left].
      + intros block. apply hoare_apply_transactions. intros q Hu.
        apply Hq. by destruct q.
    - intros _. eapply hoare_bind with (Q := λ _ _, True);
        [|intros a; by apply hoare_ret].
      by apply hoare_pool_query. }
  specialize (Hbody w1 Ho1).
  lazymatch goal with
  | |- context [match ?b f w1 with _ => _ end] =>
      destruct (b f w1) as [[a|] w2]
  end; [done|].
  destruct (catch_rollback (A:=()) f w2 _ Hbody) as (ok & w0 & -> & Ht0 & Hd0).
  intros [= <-]. right. exists (trace w2), ok. split; [done|].
  intros Hok. by rewrite Hd0.
Qed.

(** X8.  A rollback is all or nothing: on a session with no transaction
    open, when the handler throws, either [BEGIN] itself failed, or the last
    statement sent is the [ROLLBACK] of the [catch] block; in the first case,
    and in the second once that [ROLLBACK] has succeeded, the session, chain
    and balances, is the one before the request. *)
Theorem rollback_atomic height f d w :
  open_tx d = None →
  run (post_rollback height) f d = (Thrown, w) →
  (∃ pre, trace w = pre ++ [(Begin, false)]) ∧ db w = d ∨
  ∃ pre ok, trace w = pre ++ [(Rollback, ok)] ∧ (ok = true → db w = d).
Proof. apply post_rollback_thrown. Qed.

(** X9.  When the driver returns the column [data] already decoded,
    [JSON.parse] throws on the first row: a rollback that leaves at least one
    block in the chain never returns, whatever the faults. *)
Theorem rollback_decoded_rows_throws height f d :
  jsonb_as_text = false →
  blocks (delete_blocks_above height (tables d)) ≠ [] →
  (run (post_rollback height) f d).1 = Thrown.
Proof.
  intros Hj Hne.
  assert (hoare f (λ d0, tables d0 = tables d) (post_rollback height)
                (λ _ _, False) (λ _, True)) as Hh.
  { unfold post_rollback.
    eapply hoare_bind with (Q := λ _ d0, tables d0 = tables d).
    { apply hoare_pool_query; [done|]. intros d0 d1 rows Hd He. cbn in He.
      destruct (open_tx d0); by injection He as <- _. }
    intros _. eapply hoare_bind with (Q := λ _ _, False); [|by intros a w0 ?].
    eapply hoare_try_catch with (E0 := λ _, True); [|by apply hoare_catch].
    eapply hoare_bind with
      (Q := λ _ d0, blocks (tables d0) = blocks (delete_blocks_above height (tables d))).
    { apply hoare_pool_query; [done|]. intros d0 d1 rows Hd He.
      apply exec_delete_inv in He as (_ & ->). cbn. by rewrite Hd. }
    intros _. eapply hoare_bind with
      (Q := λ _ d0, blocks (tables d0) = blocks (delete_blocks_above height (tables d))).
    { apply hoare_pool_query; [done|]. intros d0 d1 rows Hd He. cbn in He.
      by injection He as <- _. }
    intros _. eapply hoare_bind with (Q := λ rows _, rows_data rows ≠ []).
    { apply hoare_pool_query; [done|]. intros d0 d1 rows Hd He. cbn in He.
      injection He as _ <-. cbn. rewrite Hd. intros Hnil.
      apply fmap_nil_inv in Hnil. apply Hne.
      apply Permutation_nil_r. rewrite <- Hnil.
      symmetry. apply order_by_height_perm. }
    intros rows. eapply hoare_bind with (Q := λ _ _, False); [|by intros a w0 ?].
    intros w0 Hrows. destruct (rows_data rows) as [|data l]; [done|].
    cbn [for_each]. rewrite !bind_run. unfold JSON_parse. rewrite Hj. done. }
  pose proof (hoare_run f _ _ _ _ d Hh eq_refl) as Hr.
  by destruct (run _ f d) as [[r|] w].
Qed.

(** ** Ids that are taken *)

Lemma post_blocks_taken_id block f d :
  block_id block ∈ row_id <$> blocks (tables d) →
  (∀ r, (run (post_blocks block) f d).1 = Returned r → r ≠ BlockAdded) ∧
  (validated d block → (run (post_blocks block) f d).1 = Thrown).
Proof.
  intros Hin.
  assert (∀ w, blocks (tables (db w)) = blocks (tables d) →
               (apply_block block f w).1 = Thrown) as Happly.
  { intros w Hw.
    assert (hoare f (λ d0, blocks (tables d0) = blocks (tables d))
                  (apply_block block) (λ _ _, False) (λ _, True)) as Hh.
    { unfold apply_block.
      eapply hoare_bind with (Q := λ _ d0, blocks (tables d0) = blocks (tables d)).
      { apply hoare_pool_query; [done|]. intros d0 d1 rows Hd He. cbn in He.
        destruct (open_tx d0); by injection He as <- _. }
      intros _. eapply hoare_bind with (Q := λ _ _, False); [|by intros a w0 ?].
      eapply hoare_try_catch with (E0 := λ _, True); [|by apply hoare_catch].
      eapply hoare_bind with (Q := λ _ d0, blocks (tables d0) = blocks (tables d)).
      { apply hoare_apply_transactions. intros q Hq.
        apply hoare_pool_query_keeps; [done|]. intros d0 d1 rows Hd He.
        by destruct (exec_update _ _ _ _ Hq He) as (-> & _ & _). }
      intros _. eapply hoare_bind with (Q := λ _ _, False); [|by intros a w0 ?].
      apply hoare_pool_query; [done|]. intros d0 d1 rows Hd He.
      apply exec_insert_inv in He as (_ & t & He & _).
      unfold insert_block in He. rewrite Hd in He.
      apply existsb_row_id in Hin. by rewrite Hin in He. }
    specialize (Hh w Hw). by destruct (apply_block block f w) as [[r|] w0]. }
  destruct (f 0%nat) eqn:Hf.
  { unfold run, post_blocks. rewrite bind_run, pool_query_fault by done. done. }
  rewrite post_blocks_run by done. cbn zeta. split.
  - intros r. repeat case_match; cbn; try by intros [= <-].
    by rewrite Happly.
  - intros (Hh & Hc & Hi).
    apply Z.eqb_eq in Hh. rewrite Hh. cbn [negb].
    apply first_unbalanced_none in Hc. rewrite Hc.
    apply String.eqb_eq in Hi. rewrite Hi. cbn [negb]. by apply Happly.
Qed.

(** X10.  A block whose id is the id of a row of the chain is never added:
    the [INSERT] is refused by the primary key.  When such a block passes the
    three checks of the handler (the height, the comparison of the sums in
    the number type of the language, the id) the handler throws, whatever the
    faults; it does not answer with a rejection. *)
Theorem taken_id_never_added block f d :
  block_id block ∈ row_id <$> blocks (tables d) →
  (∀ r, (run (post_blocks block) f d).1 = Returned r → r ≠ BlockAdded) ∧
  (validated d block → (run (post_blocks block) f d).1 = Thrown).
Proof. apply post_blocks_taken_id. Qed.

(** ** When a block is added *)






(** ** What the id covers *)

(** X16.  The recomputed id covers the height and the ids of the
    transactions, run together, and nothing else: two blocks for which this
    text is the same have the same recomputed id.  So a block that passes the
    identity check still passes it, under the same [id], after its inputs and
    outputs have been replaced by others. *)
Theorem calculatedId_covers_ids_only block1 block2 :
  (toString (block_height block1) +:+
     foldr String.append "" (tx_id <$> block_transactions block1)
   = toString (block_height block2) +:+
     foldr String.append "" (tx_id <$> block_transactions block2) →
   calculatedId block1 = calculatedId block2) ∧
  (block_height block1 = block_height block2 →
   tx_id <$> block_transactions block1 = tx_id <$> block_transactions block2 →
   block_id block1 = block_id block2 →
   block_id block1 = calculatedId block1 →
   block_id block2 = calculatedId block2).
Proof.
  assert (∀ b, calculatedId b =
               sha256_hex (toString (block_height b) +:+
                           foldr String.append "" (tx_id <$> block_transactions b)))
    as Hid.
  { intros b. unfold calculatedId, hash_digest. cbn zeta.
    rewrite hash_update_all. cbn. f_equal. f_equal.
    induction (block_transactions b) as [|tx txs IH]; [done|].
    cbn. by rewrite IH. }
  split.
  - intros Htext. by rewrite !Hid, Htext.
  - intros Hh Hids Hb Hc. by rewrite <- Hb, Hc, !Hid, Hh, Hids.
Qed.

(** X17.  An input without a [value] property, as the declared type
    [Input] has it, makes the sum of the inputs [NaN]; a block of the right
    height that holds such an input is rejected with [UnbalancedTransaction],
    whatever its outputs, and the session is unchanged. *)
Theorem input_without_value_rejected block f d tx input :
  tx ∈ block_transactions block →
  input ∈ tx_inputs tx →
  input_value input = None →
  inputSum tx = NaN ∧
  (f 0%nat = false →
   block_height block = currentHeight d + 1 →
   run (post_blocks block) f d =
   (Returned UnbalancedTransaction, mkWorld d [(SelectMaxHeight, true)])).
Proof.
  intros Htx Hin Hv.
  assert (¬ balanced tx) as Hnc.
  { intros Hc. destruct (balanced_input_value tx input Hc Hin) as [v Hv0].
    congruence. }
  split.
  - by apply (js_sum_inputs_valueless (tx_inputs tx) (Num 0) input).
  - intros Hf Hh. rewrite post_blocks_run by done. cbn zeta.
    apply Z.eqb_eq in Hh. rewrite Hh. cbn [negb].
    by destruct (first_unbalanced_some (block_transactions block))
      as [tx0 ->]; [by exists tx|].
Qed.

(** ** The amounts on the rows that exist *)

Lemma hoare_for_each_fold {A S} f (I : S → Db → Prop) (step : S → A → S)
    (l : list A) (body : A → M unit) E s :
  (∀ s0 x, x ∈ l → hoare f (I s0) (body x) (λ _, I (step s0 x)) E) →
  hoare f (I s) (for_each l body) (λ _, I (fold_left step l s)) E.
Proof.
  revert s. induction l as [|x l IH]; intros s Hb; cbn.
  - by apply hoare_ret.
  - eapply hoare_bind with (Q := λ _, I (step s x));
      [apply Hb, list_elem_of_here|].
    intros []. apply IH. intros s0 y Hy. by apply Hb, list_elem_of_further.
Qed.

Lemma credit_same a v g : credit a v g a = g a + v.
Proof. unfold credit. by rewrite String.eqb_refl. Qed.

Lemma credit_other a v g x : x ≠ a → credit a v g x = g x.
Proof. intros Hx. unfold credit. apply String.eqb_neq in Hx. by rewrite Hx. Qed.

Lemma exec_update_moved B0 g (sign : Z) q v a d d0 rows :
  (q = UpdateBalanceSub (Some v) a ∧ sign = -1 ∨
   q = UpdateBalanceAdd (Some v) a ∧ sign = 1) →
  moved_by B0 g d → exec q d = Some (d0, rows) →
  moved_by B0 (match a with
               | Some x => credit x (sign * v) g
               | None => g
               end) d0.
Proof.
  intros Hq Hm He.
  assert (∃ op t, (∀ b, op b v = b + sign * v) ∧
                  update_balance op (Some v) a (tables d) = Some t ∧
                  d0 = with_tables d t)
    as (op & t & Hop & Hu & ->).
  { destruct Hq as [[-> ->]|[-> ->]].
    - apply exec_update_sub_inv in He as (_ & t & Hu & ->).
      exists Z.sub, t. split; [intros b; lia|done].
    - apply exec_update_add_inv in He as (_ & t & Hu & ->).
      exists Z.add, t. split; [intros b; lia|done]. }
  clear He Hq. unfold update_balance in Hu.
  destruct a as [x|]; [|by injection Hu as <-].
  destruct (balances (tables d) !! x) as [b|] eqn:Hb;
    [destruct (int4 (op b v)); [|done]|];
    injection Hu as <-; unfold with_tables; intros y b0 Hy;
    cbn [tables balances].
  - destruct (decide (y = x)) as [->|Hne].
    + rewrite lookup_insert_eq, credit_same, Hop.
      rewrite (Hm _ _ Hy) in Hb. injection Hb as <-. f_equal. lia.
    + rewrite lookup_insert_ne by done. rewrite credit_other by done.
      by apply Hm.
  - destruct (decide (y = x)) as [->|Hne].
    + rewrite (Hm _ _ Hy) in Hb. done.
    + rewrite credit_other by done. by apply Hm.
Qed.

(** X18.  On the rows that exist the [UPDATE]s of an added block compute
    the fold of its deltas: the balance of an address that had a row is its
    old balance plus the outputs to it minus the inputs from it, in the order
    of the block; an address that had no row has none afterwards. *)
Theorem added_balances block f d w :
  run (post_blocks block) f d = (Returned BlockAdded, w) →
  (∀ a b0, balances (tables d) !! a = Some b0 →
     balances (tables (db w)) !! a = Some (b0 + fold_block (λ _, 0) block a)) ∧
  (∀ a, balances (tables d) !! a = None → balances (tables (db w)) !! a = None).
Proof.
  intros Hr. apply post_blocks_added in Hr as (_ & (_ & Hc & _) & Ha).
  set (B0 := balances (tables d)).
  assert (hoare f (moved_by B0 (λ _, 0)) (apply_block block)
                (λ _, moved_by B0 (fold_block (λ _, 0) block)) (λ _, True))
    as Hh.
  { unfold apply_block.
    eapply hoare_bind with (Q := λ _, moved_by B0 (λ _, 0)).
    { apply hoare_pool_query; [done|]. intros d0 d1 rows Hd He. cbn in He.
      destruct (open_tx d0); by injection He as <- _. }
    intros _. eapply hoare_bind; [|intros a; apply hoare_ret; intros d0 Hd; exact Hd].
    eapply hoare_try_catch with (E0 := λ _, True); [|by apply hoare_catch].
    eapply hoare_bind with (Q := λ _, moved_by B0 (fold_block (λ _, 0) block)).
    { unfold fold_block, apply_transactions.
      apply (hoare_for_each_fold f (moved_by B0) fold_transaction).
      intros g tx Htx. rewrite Forall_forall in Hc. specialize (Hc tx Htx).
      unfold fold_transaction.
      eapply hoare_bind with
        (Q := λ _, moved_by B0 (fold_left fold_input (tx_inputs tx) g)).
      - apply (hoare_for_each_fold f (moved_by B0) fold_input).
        intros g0 input Hin.
        destruct (balanced_input_value tx input Hc Hin) as [v Hv].
        eapply hoare_bind; [|intros a; apply hoare_ret; intros d0 Hd; exact Hd].
        apply hoare_pool_query; [done|]. intros d0 d1 rows Hd He.
        rewrite Hv in He. unfold fold_input. rewrite Hv.
        pose proof (exec_update_moved B0 g0 (-1) _ v (input_address input)
                      d0 d1 rows (or_introl (conj eq_refl eq_refl)) Hd He) as Hm.
        destruct (input_address input); [|done].
        by replace (- v) with (-1 * v) by lia.
      - intros []. apply (hoare_for_each_fold f (moved_by B0) fold_output).
        intros g0 output Hout.
        eapply hoare_bind; [|intros a; apply hoare_ret; intros d0 Hd; exact Hd].
        apply hoare_pool_query; [done|]. intros d0 d1 rows Hd He.
        pose proof (exec_update_moved B0 g0 1 _ (output_value output)
                      (Some (output_address output))
                      d0 d1 rows (or_intror (conj eq_refl eq_refl)) Hd He) as Hm.
        unfold fold_output.
        by replace (1 * output_value output) with (output_value output) in Hm
          by lia. }
    intros _.
    eapply hoare_bind with (Q := λ _, moved_by B0 (fold_block (λ _, 0) block)).
    { apply hoare_pool_query; [done|]. intros d0 d1 rows Hd He.
      apply exec_insert_inv in He as (_ & t & Hi & ->).
      intros a b0 Hb. cbn.
      rewrite (insert_block_balances _ _ _ _ _ Hi). by apply Hd. }
    intros _. eapply hoare_bind; [|intros a; apply hoare_ret; intros d0 Hd; exact Hd].
    apply hoare_pool_query; [done|]. intros d0 d1 rows Hd He. cbn in He.
    by injection He as <- _. }
  assert (moved_by B0 (λ _, 0) d) as Hd0.
  { intros a b0 Hb. unfold B0 in Hb. rewrite Hb. f_equal. lia. }
  pose proof (Hh (mkWorld d [(SelectMaxHeight, true)]) Hd0) as Hm.
  rewrite Ha in Hm. split; [exact Hm|].
  intros a Hnone.
  pose proof (hoare_apply_block f block (blocks (tables d))
                (dom (balances (tables d)))
                (mkWorld d [(SelectMaxHeight, true)]) (conj eq_refl eq_refl))
    as Hb.
  rewrite Ha in Hb. destruct Hb as (_ & Hdom & _).
  apply not_elem_of_dom. rewrite Hdom. by apply not_elem_of_dom.
Qed.

(** ** The tests of the repository *)

(** X19.  The tests of [spec/index.spec.ts] cannot pass on these handlers:
    the request of the first test is answered [Block added] in no state of
    the session, under no faults and for no digest function (on the empty
    database it is answered [UnbalancedTransaction]), and in no reachable
    state is a balance of 10 reported for [addr1], as the second test
    expects. *)
Theorem spec_tests_cannot_pass :
  (∀ f d, (run (post_blocks spec_test_block) f d).1 ≠ Returned BlockAdded) ∧
  (run (post_blocks spec_test_block) no_faults empty_db).1
    = Returned UnbalancedTransaction ∧
  (∀ f d, reachable d →
     (run (get_balance "addr1") f d).1 ≠ Returned (send (BalanceBody 10))).
Proof.
  split; [|split].
  - intros f d Hr. destruct (run _ f d) as [o w] eqn:Hrun. cbn in Hr. subst o.
    apply post_blocks_added in Hrun as (_ & (_ & Hc & _) & _).
    apply Forall_cons_1 in Hc as [Hb _]. vm_compute in Hb. done.
  - by rewrite post_blocks_run.
  - intros f d Hr. destruct (f 0%nat) eqn:Hf.
    + unfold run, get_balance. by rewrite bind_run, pool_query_fault.
    + by rewrite get_balance_reachable.
Qed.

(** ** No handler leaves a transaction open *)

Lemma hoare_any {A} f (m : M A) :
  hoare f (λ _, True) m (λ _ _, True) (λ _, True).
Proof. intros w _. by destruct (m f w) as [[a|] w0]. Qed.

Lemma hoare_commit_closed f :
  hoare f (λ _, True) (pool_query Commit;; mret tt)
        (λ _ d, open_tx d = None) (λ _, True).
Proof.
  eapply hoare_bind with (Q := λ _ d, open_tx d = None);
    [|intros a; by apply hoare_ret].
  apply hoare_pool_query; [done|]. intros d d0 rows _ He. cbn in He.
  by injection He as <- _.
Qed.

Lemma hoare_catch_closed {A} f (Q : A → Db → Prop) :
  hoare f (λ _, True) (pool_query Rollback;; throw) Q (λ d, open_tx d = None).
Proof.
  apply hoare_catch; [intros d _; apply open_tx_abort|].
  intros d d0 rows _ He. cbn in He.
  destruct (open_tx d) eqn:Ho; injection He as <- _; done.
Qed.

Lemma hoare_closed_statement f q :
  (∀ d d0 rows, exec q d = Some (d0, rows) → d0 = d) →
  hoare f (λ d, open_tx d = None) (pool_query q)
        (λ _ d, open_tx d = None) (λ d, open_tx d = None).
Proof.
  intros Hq. apply hoare_pool_query; [intros d _; apply open_tx_abort|].
  intros d d0 rows Hd He. by rewrite (Hq _ _ _ He).
Qed.

Lemma hoare_begin_closed f :
  hoare f (λ d, open_tx d = None) (pool_query Begin) (λ _ _, True)
        (λ d, open_tx d = None).
Proof.
  apply hoare_pool_query; [|done]. intros d Hd. apply open_tx_abort.
Qed.

Lemma hoare_post_blocks_closed f block :
  hoare f (λ d, open_tx d = None) (post_blocks block)
        (λ _ d, open_tx d = None) (λ d, open_tx d = None).
Proof.
  unfold post_blocks.
  eapply hoare_bind with (Q := λ _ d, open_tx d = None).
  { apply hoare_closed_statement. intros d d0 rows He. cbn in He.
    by injection He as <- _. }
  intros rows. cbn zeta.
  repeat (case_match; [by apply hoare_ret|]).
  unfold apply_block.
  eapply hoare_bind with (Q := λ _ _, True); [apply hoare_begin_closed|].
  intros _. eapply hoare_bind with (Q := λ _ d, open_tx d = None);
    [|intros a; by apply hoare_ret].
  eapply hoare_try_catch with (E0 := λ _, True); [|apply hoare_catch_closed].
  eapply hoare_bind with (Q := λ _ _, True); [apply hoare_any|intros _].
  eapply hoare_bind with (Q := λ _ _, True); [apply hoare_any|intros _].
  apply hoare_commit_closed.
Qed.

Lemma hoare_get_balance_closed f address :
  hoare f (λ d, open_tx d = None) (get_balance address)
        (λ _ d, open_tx d = None) (λ d, open_tx d = None).
Proof.
  unfold get_balance. eapply hoare_bind with (Q := λ _ d, open_tx d = None).
  - apply hoare_closed_statement. intros d d0 rows He. cbn in He.
    by injection He as <- _.
  - intros rows. case_match; by apply hoare_ret.
Qed.

Lemma hoare_post_rollback_closed f height :
  hoare f (λ d, open_tx d = None) (post_rollback height)
        (λ _ d, open_tx d = None) (λ d, open_tx d = None).
Proof.
  unfold post_rollback.
  eapply hoare_bind with (Q := λ _ _, True); [apply hoare_begin_closed|].
  intros _. eapply hoare_bind with (Q := λ _ d, open_tx d = None);
    [|intros a; by apply hoare_ret].
  eapply hoare_try_catch with (E0 := λ _, True); [|apply hoare_catch_closed].
  eapply hoare_bind with (Q := λ _ _, True); [apply hoare_any|intros _].
  eapply hoare_bind with (Q := λ _ _, True); [apply hoare_any|intros _].
  eapply hoare_bind with (Q := λ _ _, True); [apply hoare_any|intros rows].
  eapply hoare_bind with (Q := λ _ _, True); [apply hoare_any|intros _].
  apply hoare_commit_closed.
Qed.

Lemma reachable_closed d : reachable d → open_tx d = None.
Proof.
  induction 1 as [|d block f _ IH|d address f _ IH|d height f _ IH].
  - done.
  - pose proof (hoare_run f _ _ _ _ d (hoare_post_blocks_closed f block) IH) as Hr.
    by destruct (run _ f d) as [[a|] w].
  - pose proof (hoare_run f _ _ _ _ d (hoare_get_balance_closed f address) IH) as Hr.
    by destruct (run _ f d) as [[a|] w].
  - pose proof (hoare_run f _ _ _ _ d (hoare_post_rollback_closed f height) IH) as Hr.
    by destruct (run _ f d) as [[a|] w].
Qed.

(** C7 (the transaction is all or nothing).  No handler leaves a
    transaction open, so every request finds a session with none.  On such a
    session take a block that passes the checks.  A statement that fails,
    whichever it is and for whatever reason, makes the handler throw.  When
    the handler throws, the session, balances and chain, is the one before
    the request, whether the [ROLLBACK] of the [catch] block succeeds or
    fails; the failed statement is the last one of the transaction that was
    sent, it was sent once, and the only statement after it is that
    [ROLLBACK] (none when [BEGIN] itself failed). *)
Theorem apply_atomic :
  (∀ d, reachable d → open_tx d = None) ∧
  ∀ block f d,
    open_tx d = None →
    f 0%nat = false →
    validated d block →
    let r := run (post_blocks block) f d in
    ((∃ q, (q, false) ∈ trace r.2) → r.1 = Thrown) ∧
    (r.1 = Thrown →
       db r.2 = d ∧
       ∃ pre q, Forall succeeded pre ∧
         (trace r.2 = pre ++ [(q, false)] ∧ q = Begin ∨
          ∃ ok, trace r.2 = pre ++ [(q, false); (Rollback, ok)])).
Proof.
  split; [apply reachable_closed|].
  intros block f d Ho Hf (Hh & Hc & Hi) r. subst r.
  rewrite post_blocks_run by done.
  cbn zeta. apply Z.eqb_eq in Hh. rewrite Hh. cbn [negb].
  apply first_unbalanced_none in Hc. rewrite Hc.
  apply String.eqb_eq in Hi. rewrite Hi. cbn [negb].
  pose proof (apply_block_cases block f (mkWorld d [(SelectMaxHeight, true)]))
    as Hcases.
  destruct (apply_block _ _ _) as [[r|] w0]; cbn.
  - split; [|done]. intros (q & Hq). exfalso.
    assert (Forall succeeded (trace w0)) as Hall.
    { apply Hcases; [done|]. by repeat constructor. }
    rewrite Forall_forall in Hall. by specialize (Hall _ Hq).
  - split; [done|]. intros _. apply Hcases; [done|]. by repeat constructor.
Qed.

End Triples.

(** ** Start-up *)

Ltac boot_unfold :=
  unfold Boot.main, Boot.run, Boot.bootstrap, Boot.createTables,
    Boot.testPostgres, Boot.listen, Boot.bind, Boot.ret, Boot.throw,
    Boot.console_log, Boot.pool_query, Boot.create_if_missing in *;
  cbn in *.

(** X11.  [createTables] creates what is missing and touches nothing else:
    under any faults a table that exists keeps its rows; when the function
    returns, the three tables exist and the three statements were sent, each
    with success; without faults it returns on every catalog, and running it
    again changes nothing. *)
Theorem createTables_keeps_rows f c :
  let r := Boot.run Boot.createTables f c in
  let c0 := Boot.catalog r.2 in
  (∀ x, Boot.users_table c = Some x → Boot.users_table c0 = Some x) ∧
  (∀ x, Boot.blocks_table c = Some x → Boot.blocks_table c0 = Some x) ∧
  (∀ x, Boot.balances_table c = Some x → Boot.balances_table c0 = Some x) ∧
  (r.1 = Boot.Returned tt →
     is_Some (Boot.users_table c0) ∧ is_Some (Boot.blocks_table c0) ∧
     is_Some (Boot.balances_table c0) ∧
     Boot.sent r.2 = [(Boot.CreateUsers, true); (Boot.CreateBlocks, true);
                      (Boot.CreateBalances, true)]) ∧
  (Boot.run Boot.createTables no_faults c).1 = Boot.Returned tt ∧
  Boot.catalog
    (Boot.run Boot.createTables no_faults
       (Boot.catalog (Boot.run Boot.createTables no_faults c).2)).2
  = Boot.catalog (Boot.run Boot.createTables no_faults c).2.
Proof.
  destruct c as [[us|] [bs|] [ba|]]; boot_unfold;
    destruct (f 0%nat); cbn; destruct (f 1%nat); cbn; destruct (f 2%nat); cbn;
    repeat split; intros; simplify_eq; eauto.
Qed.

(** X12.  [testPostgres] replaces whatever the table [users] holds by one
    row, [(randomUUID(), Satoshi, Nakamoto)], and logs it; the tables
    [blocks] and [balances] are never touched, under any faults; on a catalog
    without the table [users] it throws at its first statement. *)
Theorem testPostgres_one_user env f c :
  let r := Boot.run (Boot.testPostgres env) f c in
  let c0 := Boot.catalog r.2 in
  let satoshi := Boot.mkUserRow (Boot.randomUUID env) "Satoshi" "Nakamoto" in
  Boot.blocks_table c0 = Boot.blocks_table c ∧
  Boot.balances_table c0 = Boot.balances_table c ∧
  (r.1 = Boot.Returned tt →
     Boot.users_table c0 = Some [satoshi] ∧
     Boot.console r.2 = [Boot.Users [satoshi]]) ∧
  (is_Some (Boot.users_table c) →
     (Boot.run (Boot.testPostgres env) no_faults c).1 = Boot.Returned tt) ∧
  (Boot.users_table c = None →
     r.1 = Boot.Thrown Boot.StoreError ∧ c0 = c ∧
     Boot.sent r.2 = [(Boot.DeleteUsers, false)]).
Proof.
  destruct c as [[us|] bs ba]; boot_unfold;
    destruct (f 0%nat); cbn; destruct (f 1%nat); cbn; destruct (f 2%nat); cbn;
    repeat split; intros; simplify_eq; try done;
    by match goal with Hs : is_Some None |- _ => destruct Hs as [? ?] end.
Qed.

(** X13.  When [DATABASE_URL] is unset or empty, [bootstrap] throws after
    its first log line without sending any statement, and the top-level block
    logs the error and exits with code 1; the server never listens and the
    database is not touched. *)
Theorem bootstrap_without_url env f c :
  Boot.DATABASE_URL env = None ∨ Boot.DATABASE_URL env = Some "" →
  Boot.run (Boot.bootstrap env) f c =
    (Boot.Thrown Boot.DatabaseUrlRequired,
     Boot.mkWorld c [] [Boot.Bootstrapping]) ∧
  Boot.main env f c =
    (Boot.Exit 1,
     Boot.mkWorld c [] [Boot.Bootstrapping;
                        Boot.LoggedError Boot.DatabaseUrlRequired]).
Proof.
  intros [Hu|Hu]; boot_unfold; rewrite Hu; cbn; done.
Qed.

(** X14.  A start never loses the ledger: under any faults, and however the
    start ends, a table [blocks] or [balances] that exists keeps its rows.
    When the start ends with the server listening, the three tables exist,
    [users] holds the one row of [testPostgres], and six statements were
    sent.  With [DATABASE_URL] set, no fault and a port that can be bound, the
    start ends with the server listening, on every catalog. *)
Theorem start_keeps_ledger env f c :
  let r := Boot.main env f c in
  let c0 := Boot.catalog r.2 in
  (∀ x, Boot.blocks_table c = Some x → Boot.blocks_table c0 = Some x) ∧
  (∀ x, Boot.balances_table c = Some x → Boot.balances_table c0 = Some x) ∧
  (r.1 = Boot.Listening →
     Boot.users_table c0 =
       Some [Boot.mkUserRow (Boot.randomUUID env) "Satoshi" "Nakamoto"] ∧
     is_Some (Boot.blocks_table c0) ∧ is_Some (Boot.balances_table c0) ∧
     length (Boot.sent r.2) = 6%nat ∧ Forall (λ e, e.2 = true) (Boot.sent r.2)) ∧
  (Boot.js_not (Boot.DATABASE_URL env) = false →
   Boot.listen_succeeds env = true →
     (Boot.main env no_faults c).1 = Boot.Listening) ∧
  (r.1 ≠ Boot.Listening → r.1 = Boot.Exit 1).
Proof.
  destruct c as [[us|] [bs|] [ba|]];
    destruct env as [url uuid ok]; boot_unfold;
    destruct (Boot.js_not url), ok; cbn;
    destruct (f 0%nat); cbn; destruct (f 1%nat); cbn; destruct (f 2%nat); cbn;
    destruct (f 3%nat); cbn; destruct (f 4%nat); cbn; destruct (f 5%nat); cbn;
    repeat split; intros; simplify_eq; eauto;
    repeat constructor.
Qed.

(** ** The theorems at concrete requests

    From here on the handlers run on [plain_platform]. *)
#[local] Existing Instance plain_platform.

(** A request of the wrong height on the empty database. *)
Lemma height_check_witness :
  no_faults 0%nat = false ∧
  block_height far_block ≠ currentHeight empty_db + 1 ∧
  run (post_blocks far_block) no_faults empty_db =
  (Returned InvalidHeight, mkWorld empty_db [(SelectMaxHeight, true)]).
Proof.
  assert (block_height far_block ≠ currentHeight empty_db + 1) as Hne
    by (vm_compute; discriminate).
  split; [reflexivity|]. split; [exact Hne|].
  destruct (height_check far_block no_faults empty_db eq_refl)
    as (_ & _ & Hbad & _).
  exact (Hbad Hne).
Defined.

(** [far_block] fails the height check and the conservation check; only the
    first is reported. *)
Lemma validation_order_witness :
  no_faults 0%nat = false ∧
  block_height far_block ≠ currentHeight empty_db + 1 ∧
  ¬ Forall balanced (block_transactions far_block) ∧
  run (post_blocks far_block) no_faults empty_db =
  (Returned InvalidHeight, mkWorld empty_db [(SelectMaxHeight, true)]).
Proof.
  assert (block_height far_block ≠ currentHeight empty_db + 1) as Hne
    by (vm_compute; discriminate).
  split; [reflexivity|]. split; [exact Hne|]. split.
  - intros Hall. apply Forall_cons_1 in Hall as [Hb _].
    vm_compute in Hb. discriminate.
  - destruct (validation_order far_block no_faults empty_db eq_refl)
      as (Hbad & _).
    exact (Hbad Hne).
Defined.



(** [transfer1] on [seeded_db]: the credit to [bob] fails after the debit
    of [alice] went through, and the [ROLLBACK] of the [catch] block fails
    as well. *)
Lemma apply_atomic_witness :
  open_tx seeded_db = None ∧
  fault_from 3 0%nat = false ∧
  validated seeded_db transfer1 ∧
  let r := run (post_blocks transfer1) (fault_from 3) seeded_db in
  trace r.2 = [(SelectMaxHeight, true); (Begin, true);
               (UpdateBalanceSub (Some 10) (Some "alice"), true);
               (UpdateBalanceAdd (Some 10) (Some "bob"), false);
               (Rollback, false)] ∧
  r.1 = Thrown ∧
  db r.2 = seeded_db.
Proof.
  assert (validated seeded_db transfer1) as Hv.
  { split; [reflexivity|]. split; [|reflexivity].
    constructor; [reflexivity|constructor]. }
  split; [reflexivity|]. split; [reflexivity|]. split; [exact Hv|].
  intros r. split; [reflexivity|].
  destruct (proj2 (@apply_atomic plain_platform) transfer1 (fault_from 3)
              seeded_db eq_refl eq_refl Hv) as [Hthrown Hrestored].
  assert (r.1 = Thrown) as Hr.
  { apply Hthrown. exists (Rollback). vm_compute.
    do 4 apply list_elem_of_further. apply list_elem_of_here. }
  split; [exact Hr|]. exact (proj1 (Hrestored Hr)).
Defined.

(** The state after [transfer1] was accepted. *)
Lemma rollback_idempotent_witness :
  let d := db (run (post_blocks transfer1) no_faults empty_db).2 in
  reachable d ∧
  let d1 := db (run (post_rollback (Some 0)) no_faults d).2 in
  let d2 := db (run (post_rollback (Some 0)) no_faults d1).2 in
  balances (tables d1) = balances (tables d2) ∧
  balances (tables (db (run (post_rollback (Some (currentHeight d))) no_faults d).2))
  = balances (tables d).
Proof.
  intros d.
  assert (reachable d) as Hr.
  { apply reachable_post_blocks, reachable_start. }
  split; [exact Hr|].
  exact (rollback_idempotent d Hr (Some 0) no_faults no_faults).
Defined.

Lemma success_replies_witness :
  run (post_blocks transfer1) no_faults empty_db =
    (Returned BlockAdded, (run (post_blocks transfer1) no_faults empty_db).2) ∧
  statusCode BlockAdded = 200 ∧
  body BlockAdded = StatusBody "Block added".
Proof.
  split; [reflexivity|]. split; [reflexivity|].
  destruct (@success_replies plain_platform) as [Hblocks _].
  apply (Hblocks transfer1 no_faults empty_db BlockAdded
                 (run (post_blocks transfer1) no_faults empty_db).2);
    reflexivity.
Defined.

Lemma balances_stay_empty_witness :
  let d := db (run (post_blocks transfer1) no_faults empty_db).2 in
  reachable d ∧ no_faults 0%nat = false ∧
  balances (tables d) = ∅ ∧
  (run (get_balance "bob") no_faults d).1 = Returned AddressNotFound.
Proof.
  intros d.
  assert (reachable d) as Hr.
  { apply reachable_post_blocks, reachable_start. }
  split; [exact Hr|]. split; [reflexivity|].
  destruct (@balances_stay_empty plain_platform) as (_ & _ & Hreach).
  destruct (Hreach d Hr) as [Hempty Hquery].
  split; [exact Hempty|]. exact (Hquery "bob" no_faults eq_refl).
Defined.

(** The outcome that the specification and the tests of the repository
    expect of the scenario is not the one of the code: the block is not
    accepted, and no balance of 10 is reported for [addr1]. *)
Example scenario_block1_not_accepted :
  ¬ (let r := run (post_blocks block1) no_faults empty_db in
     r.1 = Returned BlockAdded ∧
     (run (get_balance "addr1") no_faults (db r.2)).1
     = Returned (send (BalanceBody 10))).
Proof. vm_compute. intros [Hr _]. discriminate Hr. Qed.


(** C9, as the specification words it, does not hold: the body of the
    reply to an accepted block is not [{status: "accepted"}], that of a
    completed rollback is not [{status: "rolled back"}]. *)
Lemma success_bodies_refuted :
  (run (post_blocks transfer1) no_faults empty_db).1 = Returned BlockAdded ∧
  statusCode BlockAdded = 200 ∧
  body BlockAdded ≠ StatusBody "accepted" ∧
  (run (post_rollback (Some 0)) no_faults empty_db).1
  = Returned RollbackCompleted ∧
  statusCode RollbackCompleted = 200 ∧
  body RollbackCompleted ≠ StatusBody "rolled back".
Proof.
  split; [reflexivity|]. split; [reflexivity|]. split; [discriminate|].
  split; [reflexivity|]. split; [reflexivity|]. discriminate.
Qed.

(** ** The model at work *)

(** With rows in [balances] the statements of [POST /blocks] move the
    amounts. *)
Example transfer_on_seeded_rows :
  let r := run (post_blocks transfer1) no_faults seeded_db in
  r.1 = Returned BlockAdded ∧
  balances (tables (db r.2)) = <["alice" := 40]> (<["bob" := 10]> ∅) ∧
  row_height <$> blocks (tables (db r.2)) = [1].
Proof. vm_compute. repeat split. Qed.

(** The credit fails after the debit: the [ROLLBACK] undoes the debit. *)
Example credit_fault_undone :
  run (post_blocks transfer1) (fault_at 3) seeded_db =
  (Thrown,
   mkWorld seeded_db
           [(SelectMaxHeight, true); (Begin, true);
            (UpdateBalanceSub (Some 10) (Some "alice"), true);
            (UpdateBalanceAdd (Some 10) (Some "bob"), false);
            (Rollback, true)]).
Proof. vm_compute. reflexivity. Qed.

(** On rows that exist, a rollback empties the table and the replay finds
    nothing to update. *)
Example rollback_on_seeded_rows :
  let r := run (post_blocks transfer1) no_faults seeded_db in
  let r' := run (post_rollback (Some 1)) no_faults (db r.2) in
  r'.1 = Returned RollbackCompleted ∧
  balances (tables (db r'.2)) = ∅ ∧
  row_height <$> blocks (tables (db r'.2)) = [1].
Proof. vm_compute. repeat split. Qed.

(** An input of the declared type, without [value]: the sum is [NaN] and the
    transaction is refused, whatever its outputs. *)
Example input_of_declared_type :
  let tx := mkTransaction "t" [mkInput "tx0" 0 None None] [] in
  inputSum tx = NaN ∧ outputSum tx = Num 0 ∧ first_unbalanced [tx] = Some tx.
Proof. repeat split. Qed.

(** When the driver decodes the column, [JSON.parse] throws on the first
    stored block and the rollback is undone. *)
Example rollback_of_decoded_rows :
  let block := @transfer1 decoding_platform in
  let d := db (run (@post_blocks decoding_platform block) no_faults empty_db).2 in
  let r := run (@post_rollback decoding_platform (Some 0)) no_faults empty_db in
  let r' := run (@post_rollback decoding_platform (Some 1)) no_faults d in
  r.1 = Returned RollbackCompleted ∧ r'.1 = Thrown ∧ db r'.2 = d.
Proof. vm_compute. repeat split. Qed.

(** The credit fails after the debit and the [ROLLBACK] fails too: the
    transaction was aborted by the first failure, and the debit is not
    there. *)
Example credit_and_rollback_fault_undone :
  run (post_blocks transfer1) (fault_from 3) seeded_db =
  (Thrown,
   mkWorld seeded_db
           [(SelectMaxHeight, true); (Begin, true);
            (UpdateBalanceSub (Some 10) (Some "alice"), true);
            (UpdateBalanceAdd (Some 10) (Some "bob"), false);
            (Rollback, false)]).
Proof. vm_compute. reflexivity. Qed.

(** The sums of the handler are those of binary64 addition: [js_add] agrees
    with the addition of the Standard Library's specification of floating
    point numbers, below 2^53, at ties, above 2^53, for negative numbers and
    at the overflow to infinity. *)
Example js_add_is_binary64_add :
  forallb (λ xy, jsnum_eqb (js_add (Num xy.1) (Num xy.2))
                           (binary64_add xy.1 xy.2))
         [(3, 4); (0, 0); (10, -10); (-7, 3);
          (9007199254740991, 1); (9007199254740991, 2);
          (9007199254740992, 1); (9007199254740992, 2);
          (9007199254740992, 3); (9007199254740994, 1);
          (9007199254740994, 3); (-9007199254740992, -1);
          (-9007199254740992, -3); (9007199254740992, -1);
          (18014398509481984, -1); (18014398509481984, -3);
          (18014398509481984, 2); (18014398509481984, 6);
          (2 ^ 60 + 2 ^ 8, 2 ^ 7); (2 ^ 60 + 2 ^ 8, 2 ^ 7 + 1);
          (2 ^ 60, 2 ^ 7 - 1);
          ((2 ^ 53 - 1) * 2 ^ 971, 2 ^ 970);
          ((2 ^ 53 - 1) * 2 ^ 971, 2 ^ 970 - 2 ^ 917);
          ((2 ^ 53 - 1) * 2 ^ 971, (2 ^ 53 - 1) * 2 ^ 971);
          (- (2 ^ 53 - 1) * 2 ^ 971, - 2 ^ 970)] = true.
Proof. vm_compute. reflexivity. Qed.

Example js_add_rounds :
  js_add (Num 9007199254740991) (Num 2) = Num 9007199254740992 ∧
  js_add (Num 9007199254740992) (Num 1) = Num 9007199254740992 ∧
  js_add (Num 9007199254740992) (Num 3) = Num 9007199254740996 ∧
  js_add (Num ((2 ^ 53 - 1) * 2 ^ 971)) (Num (2 ^ 970)) = Inf false.
Proof. vm_compute. repeat split. Qed.

(** An amount outside the range of [INTEGER] is refused as a parameter even
    though no row matches: the block passes the three checks and the handler
    throws at the first [UPDATE]. *)
Example wide_amount_refused :
  validated empty_db wide_block ∧
  run (post_blocks wide_block) no_faults empty_db =
  (Thrown,
   mkWorld empty_db
           [(SelectMaxHeight, true); (Begin, true);
            (UpdateBalanceSub (Some 2147483648) (Some "alice"), false);
            (Rollback, true)]).
Proof.
  split; [|reflexivity].
  split; [reflexivity|]. split; [|reflexivity].
  constructor; [reflexivity|constructor].
Qed.

(** A balance that would leave the range of [INTEGER] is an error. *)
Example balance_overflow_refused :
  exec (UpdateBalanceAdd (Some 1) (Some "bob"))
       (mkDb (mkTables [] (<["bob" := 2147483647]> ∅)) None) = None ∧
  exec (UpdateBalanceSub (Some 1) (Some "bob"))
       (mkDb (mkTables [] (<["bob" := -2147483648]> ∅)) None) = None.
Proof. vm_compute. repeat split. Qed.

(** A target height outside the range of [INTEGER] makes the [DELETE] fail
    and the rollback throw. *)
Example rollback_height_out_of_range :
  run (post_rollback (Some 2147483648)) no_faults empty_db =
  (Thrown,
   mkWorld empty_db
           [(Begin, true); (DeleteBlocksAbove (Some 2147483648), false);
            (Rollback, true)]).
Proof. vm_compute. reflexivity. Qed.

(** The text that is digested does not separate the height from the ids:
    height 1 with one transaction "2" and height 12 with none have the same
    recomputed id. *)
Lemma calculatedId_runs_together {platform : Platform} (id1 id2 : string) :
  calculatedId (mkBlock id1 1 [mkTransaction "2" [] []]) =
  calculatedId (mkBlock id2 12 []).
Proof. reflexivity. Qed.

(** ** Further properties at concrete requests *)

Lemma added_only_if_validated_witness :
  let w := (run (post_blocks transfer1) no_faults empty_db).2 in
  run (post_blocks transfer1) no_faults empty_db = (Returned BlockAdded, w) ∧
  validated empty_db transfer1.
Proof.
  intros w.
  assert (run (post_blocks transfer1) no_faults empty_db
          = (Returned BlockAdded, w)) as Hrun by reflexivity.
  split; [exact Hrun|].
  exact (proj1 (added_only_if_validated transfer1 no_faults empty_db w Hrun)).
Defined.

Lemma added_effect_witness :
  let w := (run (post_blocks transfer1) no_faults empty_db).2 in
  run (post_blocks transfer1) no_faults empty_db = (Returned BlockAdded, w) ∧
  currentHeight (db w) = 1 ∧
  run (post_blocks transfer1) no_faults (db w) =
  (Returned InvalidHeight, mkWorld (db w) [(SelectMaxHeight, true)]).
Proof.
  intros w.
  assert (run (post_blocks transfer1) no_faults empty_db
          = (Returned BlockAdded, w)) as Hrun by reflexivity.
  split; [exact Hrun|].
  destruct (added_effect transfer1 no_faults empty_db w Hrun)
    as (_ & _ & _ & Hc & Hagain).
  split; [exact Hc|]. apply Hagain. reflexivity.
Defined.

Lemma reachable_heights_witness :
  let d := db (run (post_blocks transfer1) no_faults empty_db).2 in
  reachable d ∧ currentHeight d = Z.of_nat (length (blocks (tables d))).
Proof.
  intros d.
  assert (reachable d) as Hr by apply reachable_post_blocks, reachable_start.
  split; [exact Hr|]. exact (proj2 (reachable_heights d Hr)).
Defined.

Lemma reachable_rows_valid_witness :
  let d := db (run (post_blocks transfer1) no_faults empty_db).2 in
  reachable d ∧ NoDup (row_id <$> blocks (tables d)).
Proof.
  intros d.
  assert (reachable d) as Hr by apply reachable_post_blocks, reachable_start.
  split; [exact Hr|]. exact (proj2 (reachable_rows_valid d Hr)).
Defined.

Lemma rollback_returned_effect_witness :
  let d := db (run (post_blocks transfer1) no_faults empty_db).2 in
  let w := (run (post_rollback (Some 0)) no_faults d).2 in
  run (post_rollback (Some 0)) no_faults d = (Returned RollbackCompleted, w) ∧
  db w = mkDb (mkTables (blocks (delete_blocks_above (Some 0) (tables d))) ∅) None.
Proof.
  intros d w.
  assert (run (post_rollback (Some 0)) no_faults d
          = (Returned RollbackCompleted, w)) as Hrun by reflexivity.
  split; [exact Hrun|].
  exact (proj1 (rollback_returned_effect (Some 0) no_faults d
                  RollbackCompleted w Hrun)).
Defined.

Lemma rollback_then_height_witness :
  let d := db (run (post_blocks transfer1) no_faults empty_db).2 in
  let w := (run (post_rollback (Some 0)) no_faults d).2 in
  reachable d ∧
  run (post_rollback (Some 0)) no_faults d = (Returned RollbackCompleted, w) ∧
  currentHeight (db w) = Z.max 0 (Z.min 0 (currentHeight d)).
Proof.
  intros d w.
  assert (reachable d) as Hr by apply reachable_post_blocks, reachable_start.
  assert (run (post_rollback (Some 0)) no_faults d
          = (Returned RollbackCompleted, w)) as Hrun by reflexivity.
  split; [exact Hr|]. split; [exact Hrun|].
  destruct (rollback_then_height d 0 no_faults RollbackCompleted w Hr Hrun)
    as (_ & Hc & _).
  exact Hc.
Defined.

(** A rollback to height 1 of the chain that holds [transfer1]: the block
    stays, is parsed and replayed. *)
Lemma rollback_completes_witness :
  let d := db (run (post_blocks transfer1) no_faults empty_db).2 in
  jsonb_as_text = true ∧
  int4_param (Some 1) = true ∧
  row_data <$> blocks (delete_blocks_above (Some 1) (tables d)) = [transfer1] ∧
  run (post_rollback (Some 1)) no_faults d =
  (Returned RollbackCompleted,
   mkWorld d [(Begin, true); (DeleteBlocksAbove (Some 1), true);
              (TruncateBalances, true); (SelectDataOrdered, true);
              (UpdateBalanceSub (Some 10) (Some "alice"), true);
              (UpdateBalanceAdd (Some 10) (Some "bob"), true);
              (Commit, true)]) ∧
  (run (post_rollback (Some 1)) no_faults d).1 = Returned RollbackCompleted.
Proof.
  intros d.
  assert (Forall (λ r, Forall amounts_int4 (block_transactions (row_data r)))
                 (blocks (tables d))) as Ha.
  { constructor; [|constructor].
    constructor; [|constructor].
    split; (constructor; [reflexivity|constructor]). }
  split; [reflexivity|]. split; [reflexivity|]. split; [reflexivity|].
  split; [reflexivity|].
  exact (proj1 (rollback_completes (Some 1) d (or_introl eq_refl) eq_refl Ha)).
Defined.

(** The [TRUNCATE] fails on [seeded_db]. *)
Lemma rollback_atomic_witness :
  let w := (run (post_rollback (Some 0)) (fault_at 2) seeded_db).2 in
  open_tx seeded_db = None ∧
  run (post_rollback (Some 0)) (fault_at 2) seeded_db = (Thrown, w) ∧
  ((∃ pre, trace w = pre ++ [(Begin, false)]) ∧ db w = seeded_db ∨
   ∃ pre ok, trace w = pre ++ [(Rollback, ok)] ∧ (ok = true → db w = seeded_db)).
Proof.
  intros w.
  assert (run (post_rollback (Some 0)) (fault_at 2) seeded_db = (Thrown, w))
    as Hrun by reflexivity.
  split; [reflexivity|]. split; [exact Hrun|].
  exact (rollback_atomic (Some 0) (fault_at 2) seeded_db w eq_refl Hrun).
Defined.

Lemma rollback_decoded_rows_throws_witness :
  @jsonb_as_text decoding_platform = false ∧
  blocks (delete_blocks_above (Some 1) (tables taken_db)) ≠ [] ∧
  (run (@post_rollback decoding_platform (Some 1)) no_faults taken_db).1 = Thrown.
Proof.
  assert (blocks (delete_blocks_above (Some 1) (tables taken_db)) ≠ []) as Hne
    by (vm_compute; discriminate).
  split; [reflexivity|]. split; [exact Hne|].
  exact (@rollback_decoded_rows_throws decoding_platform (Some 1) no_faults
           taken_db eq_refl Hne).
Defined.

Lemma taken_id_never_added_witness :
  block_id taken_block ∈ row_id <$> blocks (tables taken_db) ∧
  validated taken_db taken_block ∧
  (run (post_blocks taken_block) no_faults taken_db).1 = Thrown.
Proof.
  assert (block_id taken_block ∈ row_id <$> blocks (tables taken_db)) as Hin
    by (vm_compute; constructor).
  assert (validated taken_db taken_block) as Hv.
  { split; [reflexivity|]. split; [constructor|reflexivity]. }
  split; [exact Hin|]. split; [exact Hv|].
  exact (proj2 (taken_id_never_added taken_block no_faults taken_db Hin) Hv).
Defined.


Lemma createTables_keeps_rows_witness :
  let r := Boot.run Boot.createTables no_faults used_catalog in
  r.1 = Boot.Returned tt ∧
  Boot.blocks_table (Boot.catalog r.2) = Boot.blocks_table used_catalog ∧
  is_Some (Boot.users_table (Boot.catalog r.2)).
Proof.
  intros r.
  destruct (createTables_keeps_rows no_faults used_catalog)
    as (_ & Hb & _ & Hret & _).
  split; [reflexivity|]. split; [apply Hb; reflexivity|].
  exact (proj1 (Hret eq_refl)).
Defined.

Lemma testPostgres_one_user_witness :
  let r := Boot.run (Boot.testPostgres good_env) no_faults used_catalog in
  r.1 = Boot.Returned tt ∧
  Boot.users_table (Boot.catalog r.2)
  = Some [Boot.mkUserRow "u1" "Satoshi" "Nakamoto"].
Proof.
  intros r.
  destruct (testPostgres_one_user good_env no_faults used_catalog)
    as (_ & _ & Hret & _).
  split; [reflexivity|]. exact (proj1 (Hret eq_refl)).
Defined.

Lemma bootstrap_without_url_witness :
  Boot.DATABASE_URL bare_env = None ∧
  Boot.main bare_env no_faults used_catalog =
  (Boot.Exit 1,
   Boot.mkWorld used_catalog []
     [Boot.Bootstrapping; Boot.LoggedError Boot.DatabaseUrlRequired]).
Proof.
  split; [reflexivity|].
  exact (proj2 (bootstrap_without_url bare_env no_faults used_catalog
                  (or_introl eq_refl))).
Defined.

Lemma start_keeps_ledger_witness :
  let r := Boot.main good_env no_faults used_catalog in
  Boot.js_not (Boot.DATABASE_URL good_env) = false ∧
  Boot.listen_succeeds good_env = true ∧
  r.1 = Boot.Listening ∧
  Boot.blocks_table (Boot.catalog r.2) = Boot.blocks_table used_catalog ∧
  Boot.balances_table (Boot.catalog r.2) = Boot.balances_table used_catalog.
Proof.
  intros r.
  destruct (start_keeps_ledger good_env no_faults used_catalog)
    as (Hb & Ha & _ & Hlisten & _).
  split; [reflexivity|]. split; [reflexivity|].
  split; [exact (Hlisten eq_refl eq_refl)|].
  split; [apply Hb; reflexivity|apply Ha; reflexivity].
Defined.

Lemma calculatedId_covers_ids_only_witness :
  block_height transfer1 = block_height redirected_block ∧
  tx_id <$> block_transactions transfer1
  = tx_id <$> block_transactions redirected_block ∧
  block_id transfer1 = block_id redirected_block ∧
  block_id transfer1 = calculatedId transfer1 ∧
  block_id redirected_block = calculatedId redirected_block.
Proof.
  split; [reflexivity|]. split; [reflexivity|]. split; [reflexivity|].
  split; [reflexivity|].
  exact (proj2 (calculatedId_covers_ids_only transfer1 redirected_block)
           eq_refl eq_refl eq_refl eq_refl).
Defined.

Lemma input_without_value_rejected_witness :
  input_value valueless_input = None ∧
  no_faults 0%nat = false ∧
  block_height valueless_block = currentHeight empty_db + 1 ∧
  run (post_blocks valueless_block) no_faults empty_db =
  (Returned UnbalancedTransaction, mkWorld empty_db [(SelectMaxHeight, true)]).
Proof.
  split; [reflexivity|]. split; [reflexivity|]. split; [reflexivity|].
  refine (proj2 (input_without_value_rejected valueless_block no_faults
                   empty_db (mkTransaction "t" [valueless_input] [])
                   valueless_input _ _ eq_refl) eq_refl eq_refl);
    constructor.
Defined.

Lemma added_balances_witness :
  let w := (run (post_blocks transfer1) no_faults seeded_db).2 in
  run (post_blocks transfer1) no_faults seeded_db = (Returned BlockAdded, w) ∧
  balances (tables seeded_db) !! "alice" = Some 50 ∧
  balances (tables (db w)) !! "alice"
  = Some (50 + fold_block (λ _, 0) transfer1 "alice").
Proof.
  intros w.
  assert (run (post_blocks transfer1) no_faults seeded_db
          = (Returned BlockAdded, w)) as Hrun by reflexivity.
  split; [exact Hrun|]. split; [reflexivity|].
  exact (proj1 (added_balances transfer1 no_faults seeded_db w Hrun)
           "alice" 50 eq_refl).
Defined.

Lemma spec_tests_cannot_pass_witness :
  reachable empty_db ∧
  (run (get_balance "addr1") no_faults empty_db).1
  ≠ Returned (send (BalanceBody 10)).
Proof.
  split; [exact reachable_start|].
  destruct (@spec_tests_cannot_pass plain_platform) as (_ & _ & Hbal).
  exact (Hbal no_faults empty_db reachable_start).
Defined.

(** [transfer1] is added on [seeded_db] and moves 10 from [alice] to
    [bob]; the fold of its deltas says the same. *)
Example transfer_follows_fold :
  fold_block (λ _, 0) transfer1 "alice" = -10 ∧
  fold_block (λ _, 0) transfer1 "bob" = 10 ∧
  fold_block (λ _, 0) transfer1 "carol" = 0.
Proof. repeat split. Qed.

(** A start on a database without tables, and a second start after it. *)
Example first_and_second_start :
  let r := Boot.main good_env no_faults no_tables in
  let r0 := Boot.main good_env no_faults (Boot.catalog r.2) in
  r.1 = Boot.Listening ∧
  Boot.catalog r.2 =
    Boot.mkCatalog (Some [Boot.mkUserRow "u1" "Satoshi" "Nakamoto"])
                   (Some []) (Some ∅) ∧
  Boot.catalog r0.2 = Boot.catalog r.2 ∧
  Boot.console r.2 =
    [Boot.Bootstrapping; Boot.Users [Boot.mkUserRow "u1" "Satoshi" "Nakamoto"]].
Proof. vm_compute. repeat split. Qed.
